(** * BitcoinAnalyzer (src/analyzer.py): a shallow embedding and its properties

    The analyzer walks the transaction graph around a set of seed
    addresses level by level, keeps per-address time windows that decide
    which transactions are relevant, records sender/receiver edges in a
    directed graph and finally prunes that graph to the nodes lying between
    seeds.

    Python data is rendered as follows: [int] is [Z] (unbounded), [str] is
    [string], a [set] of addresses is a [gset string], a [dict] is a [gmap],
    a [list] is a [list].  A JSON field read with [.get] is an [option]. *)

From Stdlib Require Import ZArith.
From stdpp Require Import gmap strings list fin_maps fin_sets relations sorting pretty.

Local Open Scope string_scope.
Local Open Scope list_scope.
Local Open Scope Z_scope.

(** ** Data model *)

(** The JSON records returned by the lookup service, as far as the analyzer
    reads them.  Every field is read with [dict.get], so every field may be
    absent. *)
Record prev_out_t := PrevOut { po_addr : option string }.
Record input_t := Input { in_prev_out : option prev_out_t }.
Record output_t := Output { out_addr : option string }.

Record tx_t := Tx {
  tx_time_field : option Z;
  tx_hash_field : option string;
  tx_inputs_field : option (list input_t);
  tx_out_field : option (list output_t)
}.

(** Attributes of an edge: [tx_hash=tx.get('hash')], [time=tx_time]. *)
Record edge_attr := EdgeAttr { attr_tx_hash : option string; attr_time : Z }.

(** ** networkx.DiGraph, as far as the analyzer uses it

    A node set and a dictionary from ordered pairs to the attribute
    dictionary of the edge. *)
Record DiGraph := MkDiGraph {
  nodes : gset string;
  edges : gmap (string * string) edge_attr
}.

Definition empty_graph : DiGraph := MkDiGraph ∅ ∅.

Definition has_edge (G : DiGraph) (u v : string) : bool :=
  bool_decide (is_Some (edges G !! (u, v))).

(** [G.add_nodes_from(ns)] *)
Definition add_nodes_from (G : DiGraph) (ns : gset string) : DiGraph :=
  MkDiGraph (nodes G ∪ ns) (edges G).

(** [G.add_edge(u, v, tx_hash=h, time=t)]: both endpoints become nodes, and
    the attributes of an existing edge are overwritten. *)
Definition add_edge (G : DiGraph) (u v : string) (a : edge_attr) : DiGraph :=
  MkDiGraph ({[u]} ∪ ({[v]} ∪ nodes G)) (<[(u, v) := a]> (edges G)).

(** Every edge joins two nodes: the invariant networkx maintains. *)
Definition graph_wf (G : DiGraph) : Prop :=
  ∀ u v, is_Some (edges G !! (u, v)) → u ∈ nodes G ∧ v ∈ nodes G.

(** The edge relation and reachability along directed edges. *)
Definition edge_rel (G : DiGraph) (u v : string) : Prop :=
  is_Some (edges G !! (u, v)).

Definition reaches (G : DiGraph) : relation string := rtc (edge_rel G).

(** ** The analyzer object *)

Record BitcoinAnalyzer := MkAnalyzer {
  initial_addresses : gset string;
  max_level : Z;
  graph : DiGraph;
  visited_addresses : gset string;
  all_transactions : list tx_t;
  address_constraints : gmap string (list (Z * Z));
  (** not a field of the Python object: how many HTTP requests the run has
      issued so far, so that the outside world may answer each request
      differently *)
  requests_made : nat
}.

Definition set_graph (self : BitcoinAnalyzer) (G : DiGraph) : BitcoinAnalyzer :=
  MkAnalyzer (initial_addresses self) (max_level self) G
    (visited_addresses self) (all_transactions self)
    (address_constraints self) (requests_made self).

Definition set_visited (self : BitcoinAnalyzer) (V : gset string) : BitcoinAnalyzer :=
  MkAnalyzer (initial_addresses self) (max_level self) (graph self)
    V (all_transactions self) (address_constraints self) (requests_made self).

Definition set_transactions (self : BitcoinAnalyzer) (l : list tx_t) : BitcoinAnalyzer :=
  MkAnalyzer (initial_addresses self) (max_level self) (graph self)
    (visited_addresses self) l (address_constraints self) (requests_made self).

Definition set_constraints (self : BitcoinAnalyzer)
    (c : gmap string (list (Z * Z))) : BitcoinAnalyzer :=
  MkAnalyzer (initial_addresses self) (max_level self) (graph self)
    (visited_addresses self) (all_transactions self) c (requests_made self).

Definition set_requests (self : BitcoinAnalyzer) (n : nat) : BitcoinAnalyzer :=
  MkAnalyzer (initial_addresses self) (max_level self) (graph self)
    (visited_addresses self) (all_transactions self)
    (address_constraints self) n.

(** ** Constraint store *)

(** [add_constraint]: create the list if the address has none, then append. *)
Definition add_constraint (self : BitcoinAnalyzer) (addr : string)
    (min_ts max_ts : Z) : BitcoinAnalyzer :=
  let c := address_constraints self in
  let c := match c !! addr with
           | None => <[addr := []]> c
           | Some _ => c
           end in
  set_constraints self (<[addr := default [] (c !! addr) ++ [(min_ts, max_ts)]]> c).

(** The [for] loop of [is_tx_relevant]: return at the first window that
    contains the time. *)
Fixpoint any_window (ws : list (Z * Z)) (tx_time : Z) : bool :=
  match ws with
  | [] => false
  | (min_ts, max_ts) :: ws' =>
      if bool_decide (min_ts ≤ tx_time ∧ tx_time ≤ max_ts) then true
      else any_window ws' tx_time
  end.

Definition is_tx_relevant (self : BitcoinAnalyzer) (addr : string) (tx_time : Z) : bool :=
  match address_constraints self !! addr with
  | None => false
  | Some ws => any_window ws tx_time
  end.

(** ** [__init__] *)

(** A [datetime], as far as the constructor reads it: [int(d.timestamp())]. *)
Record datetime := DateTime { timestamp : Z }.

(** ** The world outside the analyzer

    Two things are not fixed by the program text: the order in which Python
    iterates over a [set], and what the lookup service answers.  Both are
    fields of a [Runtime]; every result below holds for every [Runtime]. *)

(** What [response.json()] gives: it raises, or it is a dictionary whose
    ['txs'] key may be missing. *)
Inductive json_body :=
  | JsonInvalid
  | JsonDict (txs : option (list tx_t)).

(** What [requests.get(url)] gives: it raises, or it returns a response. *)
Inductive http_result :=
  | RequestException
  | Response (status_code : Z) (body : json_body).

Class Runtime := MkRuntime {
  (** [list(s)] and [for x in s] for a set [s]: some enumeration of [s] *)
  set_order : gset string → list string;
  set_order_perm : ∀ S, set_order S ≡ₚ elements S;
  (** the answer to the [n]-th request of the run, for the given URL *)
  requests_get : nat → string → http_result
}.

(** The outcome of a block that may raise. *)
Inductive result (A : Type) :=
  | Ok (a : A)
  | Raised.
Arguments Ok {A} a.
Arguments Raised {A}.

Section Engine.
Context {R : Runtime}.

Definition default_end_ts : Z := 99999999999.

Definition init (initial : list string) (max_lvl : Z)
    (start_date end_date : option datetime) : BitcoinAnalyzer :=
  let initial_set : gset string := list_to_set initial in
  let self := MkAnalyzer initial_set max_lvl empty_graph ∅ [] ∅ 0%nat in
  let start_ts := match start_date with Some d => timestamp d | None => 0 end in
  let end_ts := match end_date with Some d => timestamp d | None => default_end_ts end in
  foldl (λ self addr, add_constraint self addr start_ts end_ts) self
        (set_order initial_set).

(** ** [fetch_batch_transactions] *)

(** ['|'.join(addresses)] *)
Fixpoint join_bar (addresses : list string) : string :=
  match addresses with
  | [] => ""
  | [a] => a
  | a :: rest => a +:+ "|" +:+ join_bar rest
  end.

Definition batch_url (addresses : list string) : string :=
  "https://blockchain.info/multiaddr?active=" +:+ join_bar addresses +:+ "&n=100".

(** The body of the [try] block. *)
Definition fetch_try (resp : http_result) : result (list tx_t) :=
  match resp with
  | RequestException => Raised
  | Response status_code body =>
      if bool_decide (status_code = 200) then
        match body with
        | JsonInvalid => Raised
        | JsonDict txs => Ok (default [] txs)
        end
      else Ok []
  end.

(** The whole method: [except Exception] turns whatever the block raised
    into the empty list.  An empty batch issues no request. *)
Definition fetch_batch_transactions (self : BitcoinAnalyzer)
    (addresses : list string) : list tx_t * BitcoinAnalyzer :=
  match addresses with
  | [] => ([], self)
  | _ =>
      let resp := requests_get (requests_made self) (batch_url addresses) in
      let self := set_requests self (S (requests_made self)) in
      match fetch_try resp with
      | Ok txs => (txs, self)
      | Raised => ([], self)
      end
  end.

(** ** [analyze] *)

(** [if addr:] an address counts when it is present and not empty. *)
Definition truthy (addr : option string) : option string :=
  match addr with
  | Some a => if decide (a = "") then None else Some a
  | None => None
  end.

Definition tx_time (tx : tx_t) : Z := default 0 (tx_time_field tx).

Definition tx_attr (tx : tx_t) : edge_attr := EdgeAttr (tx_hash_field tx) (tx_time tx).

Definition tx_senders (tx : tx_t) : gset string :=
  foldl (λ senders inp,
           match in_prev_out inp with
           | Some prev_out =>
               match truthy (po_addr prev_out) with
               | Some addr => {[addr]} ∪ senders
               | None => senders
               end
           | None => senders
           end) ∅ (default [] (tx_inputs_field tx)).

Definition tx_receivers (tx : tx_t) : gset string :=
  foldl (λ receivers o,
           match truthy (out_addr o) with
           | Some addr => {[addr]} ∪ receivers
           | None => receivers
           end) ∅ (default [] (tx_out_field tx)).

(** The relevance loop: some participant is in the batch and the time is in
    one of its windows. *)
Definition tx_is_relevant (self : BitcoinAnalyzer) (batch : list string) (tx : tx_t) : bool :=
  foldl (λ is_relevant addr,
           if bool_decide (addr ∈ batch) then
             if is_tx_relevant self addr (tx_time tx) then true else is_relevant
           else is_relevant)
        false (set_order (tx_senders tx ∪ tx_receivers tx)).

Definition one_week : Z := 7 * 24 * 3600.

(** The state threaded through a level: the object and
    [next_level_addresses]. *)
Abbreviation level_state := (BitcoinAnalyzer * gset string)%type (only parsing).

(** [if s not in visited and s not in current: next.add(s); add_constraint] *)
Definition propagate (cur : list string) (new_min_ts new_max_ts : Z)
    (st : level_state) (a : string) : level_state :=
  if bool_decide ((a ∉ visited_addresses st.1) ∧ (a ∉ cur)) then
    (add_constraint st.1 a new_min_ts new_max_ts, {[a]} ∪ st.2)
  else st.

(** The body of [for r in receivers]. *)
Definition visit_pair (level : Z) (cur : list string) (tx : tx_t)
    (s : string) (st : level_state) (r : string) : level_state :=
  if bool_decide (s ≠ r) then
    let st := (set_graph st.1 (add_edge (graph st.1) s r (tx_attr tx)), st.2) in
    if bool_decide (level < max_level st.1) then
      let st := propagate cur (tx_time tx - one_week) (tx_time tx + one_week) st s in
      propagate cur (tx_time tx - one_week) (tx_time tx + one_week) st r
    else st
  else st.

(** The two nested loops over senders and receivers. *)
Definition visit_pairs (level : Z) (cur : list string) (tx : tx_t)
    (senders receivers : list string) (st : level_state) : level_state :=
  foldl (λ st s, foldl (visit_pair level cur tx s) st receivers) st senders.

(** The body of [for tx in txs]. *)
Definition process_tx (level : Z) (cur batch : list string)
    (st : level_state) (tx : tx_t) : level_state :=
  if tx_is_relevant st.1 batch tx then
    let st := (set_transactions st.1 (all_transactions st.1 ++ [tx]), st.2) in
    visit_pairs level cur tx (set_order (tx_senders tx)) (set_order (tx_receivers tx)) st
  else st.

(** The body of [for batch in batches]. *)
Definition process_batch (level : Z) (cur : list string)
    (st : level_state) (batch : list string) : level_state :=
  let '(txs, self) := fetch_batch_transactions st.1 batch in
  foldl (process_tx level cur batch) (self, st.2) txs.

Definition batch_size : nat := 20.

(** [[l[i:i + batch_size] for i in range(0, len(l), batch_size)]] *)
Definition batches (l : list string) : list (list string) :=
  fmap (λ k, take batch_size (drop (k * batch_size) l))
       (seq 0 ((length l + (batch_size - 1)) / batch_size)%nat).

(** One level that has a non-empty frontier: all its batches, then the update
    of [visited] and of the frontier. *)
Definition run_level (level : Z) (cur : list string)
    (self : BitcoinAnalyzer) : BitcoinAnalyzer * list string :=
  let st := foldl (process_batch level cur) (self, ∅) (batches cur) in
  (set_visited st.1 (visited_addresses st.1 ∪ st.2), set_order st.2).

(** [for level in range(max_level + 1)], with its [break] on an empty
    frontier. *)
Fixpoint level_loop (levels : list Z) (cur : list string)
    (self : BitcoinAnalyzer) : BitcoinAnalyzer :=
  match levels with
  | [] => self
  | level :: rest =>
      match cur with
      | [] => self
      | _ => let st := run_level level cur self in level_loop rest st.2 st.1
      end
  end.

(** [range(n)] *)
Definition range (n : Z) : list Z := Z.of_nat <$> seq 0 (Z.to_nat n).

(** The state in which the level loop starts. *)
Definition analyze_start (self : BitcoinAnalyzer) : BitcoinAnalyzer * list string :=
  let self := set_graph self (add_nodes_from (graph self) (initial_addresses self)) in
  let cur := set_order (initial_addresses self) in
  (set_visited self (visited_addresses self ∪ initial_addresses self), cur).

(** [analyze] as a transformation of the object ... *)
Definition analyze_state (self : BitcoinAnalyzer) : BitcoinAnalyzer :=
  let st := analyze_start self in
  level_loop (range (max_level self + 1)) st.2 st.1.

(** ... and the graph it returns. *)
Definition analyze (self : BitcoinAnalyzer) : DiGraph := graph (analyze_state self).

(** The frontier and the object at the start of every level the loop enters
    (the level whose empty frontier makes the loop stop included). *)
Fixpoint level_starts (levels : list Z) (cur : list string)
    (self : BitcoinAnalyzer) : list (Z * list string * BitcoinAnalyzer) :=
  match levels with
  | [] => []
  | level :: rest =>
      (level, cur, self) ::
      match cur with
      | [] => []
      | _ => let st := run_level level cur self in level_starts rest st.2 st.1
      end
  end.

End Engine.

(** ** networkx reachability and subgraphs

    [nx.descendants(G, source)] is the set of nodes reachable from [source]
    along edges, [source] itself excluded; it raises when [source] is not a
    node.  [nx.ancestors] is the same on the reversed edges.  The search is
    rendered as the repeated addition of successors, once per node of the
    graph. *)

Definition successors_in (E : gset (string * string)) (S : gset string) : gset string :=
  set_map snd (filter (λ e : string * string, e.1 ∈ S) E).

Definition expand (E : gset (string * string)) (S : gset string) : gset string :=
  S ∪ successors_in E S.

Definition reach_from (E : gset (string * string)) (fuel : nat)
    (S : gset string) : gset string :=
  Nat.iter fuel (expand E) S.

Definition edge_set (G : DiGraph) : gset (string * string) := dom (edges G).

Definition reversed_edge_set (G : DiGraph) : gset (string * string) :=
  set_map (λ e : string * string, (e.2, e.1)) (edge_set G).

Definition nx_descendants (G : DiGraph) (source : string) : result (gset string) :=
  if bool_decide (source ∈ nodes G) then
    Ok (reach_from (edge_set G) (size (nodes G)) {[source]} ∖ {[source]})
  else Raised.

Definition nx_ancestors (G : DiGraph) (source : string) : result (gset string) :=
  if bool_decide (source ∈ nodes G) then
    Ok (reach_from (reversed_edge_set G) (size (nodes G)) {[source]} ∖ {[source]})
  else Raised.

(** [G.subgraph(nbunch).copy()]: the members of [nbunch] that are nodes of
    [G], and the edges of [G] between them, attributes kept. *)
Definition nx_subgraph (G : DiGraph) (nbunch : list string) : DiGraph :=
  let keep : gset string := filter (λ n, n ∈ nbunch) (nodes G) in
  MkDiGraph keep
    (filter (λ kv : (string * string) * edge_attr, kv.1.1 ∈ keep ∧ kv.1.2 ∈ keep)
            (edges G)).

Section Pruning.
Context {R : Runtime}.

(** The loop over [initial_list]; each [try ... except: pass] leaves the set
    as it was when networkx raised. *)
Definition collect_reach (G : DiGraph) (acc : gset string * gset string)
    (node : string) : gset string * gset string :=
  let descendants :=
    match nx_descendants G node with
    | Ok d => {[node]} ∪ (acc.1 ∪ d)
    | Raised => acc.1
    end in
  let ancestors :=
    match nx_ancestors G node with
    | Ok a => {[node]} ∪ (acc.2 ∪ a)
    | Raised => acc.2
    end in
  (descendants, ancestors).

Definition filter_relevant_graph (self : BitcoinAnalyzer) : DiGraph :=
  let G := graph self in
  let initial_list := set_order (initial_addresses self) in
  let initial_list := filter (λ addr, addr ∈ nodes G) initial_list in
  if bool_decide (length initial_list < 2)%nat then
    nx_subgraph G initial_list
  else
    let da := foldl (collect_reach G) (∅, ∅) initial_list in
    let keep_nodes := da.1 ∩ da.2 in
    nx_subgraph G (set_order keep_nodes).

End Pruning.

(** ** What the specification says about pruning *)

(** The node-induced subgraph over a set of nodes. *)
Definition induced_subgraph (G : DiGraph) (K : gset string) : DiGraph :=
  MkDiGraph (nodes G ∩ K)
    (filter (λ kv : (string * string) * edge_attr, kv.1.1 ∈ K ∧ kv.1.2 ∈ K)
            (edges G)).

(** The seeds that are nodes of the graph. *)
Definition present_seeds (self : BitcoinAnalyzer) : gset string :=
  filter (λ a, a ∈ nodes (graph self)) (initial_addresses self).

(** A directed path in the sense of [nx.is_path]: a non-empty list of nodes
    of the graph, each joined to the next by an edge.  Nodes may repeat, and a
    single node is a path of length zero. *)
Fixpoint is_path (G : DiGraph) (p : list string) : Prop :=
  match p with
  | [] => False
  | [u] => u ∈ nodes G
  | u :: (v :: _) as p' => edge_rel G u v ∧ is_path G p'
  end.

(** [x] lies on a directed path that starts at a present seed and ends at a
    present seed. *)
Definition on_seed_path (self : BitcoinAnalyzer) (x : string) : Prop :=
  ∃ p s1 s2, is_path (graph self) p ∧ head p = Some s1 ∧ last p = Some s2 ∧
             s1 ∈ present_seeds self ∧ s2 ∈ present_seeds self ∧ x ∈ p.

(** ** visualizer.py and main.py *)

(** What [visualize_graph] asks of matplotlib and networkx, call by call.
    The positions [spring_layout] picks, the alpha values, the font and arrow
    settings and the lines printed to the terminal are left out. *)
Inductive draw_call :=
  | Figure
  | DrawNodes (nodelist : list string) (node_size : Z) (node_color : string)
  | DrawEdges (edgelist : gset (string * string))
  | DrawLabels (labelled : gset string)
  | Title (title : string)
  | AxisOff
  | TightLayout
  | SaveFig (output_file : string).

Section Visualizer.
Context {R : Runtime}.

Definition visualize_graph (graph : DiGraph) (initial_addresses : list string)
    (output_file : string) : list draw_call :=
  if bool_decide (size (nodes graph) = 0%nat) then []
  else
    let initial_in_graph := filter (λ node, node ∈ nodes graph) initial_addresses in
    let other_nodes :=
      filter (λ node, node ∉ initial_addresses) (set_order (nodes graph)) in
    [ Figure;
      DrawNodes other_nodes 300 "lightblue";
      DrawNodes initial_in_graph 500 "red";
      DrawEdges (edge_set graph);
      (if bool_decide (size (nodes graph) < 50)%nat
       then DrawLabels (nodes graph)
       else DrawLabels (list_to_set initial_in_graph));
      Title ("Bitcoin Transaction Analysis (" +:+ pretty (size (nodes graph)) +:+ " nodes)");
      AxisOff;
      TightLayout;
      SaveFig output_file ].

(** [main] once the arguments are parsed: construct, analyze, filter, and
    draw unless the filtered graph has no node.  Printing and the optional
    [save_data] are left out. *)
Definition main_run (addresses : list string) (level : Z)
    (start_date end_date : option datetime) (output : string) : list draw_call :=
  let analyzer := init addresses level start_date end_date in
  let analyzer := analyze_state analyzer in
  let filtered_graph := filter_relevant_graph analyzer in
  if bool_decide (0 < size (nodes filtered_graph))%nat
  then visualize_graph filtered_graph addresses output
  else [].

End Visualizer.

(** ** Notions used in the statements and proofs *)

(** The elementary updates a level performs on the object and on
    [next_level_addresses]: an edge is written, a window is propagated to a new
    address, a transaction is logged, a request is counted. *)
Inductive update (level : Z) (cur : list string) :
    relation (BitcoinAnalyzer * gset string) :=
  | update_edge self next s r a :
      s ≠ r →
      update level cur (self, next)
        (set_graph self (add_edge (graph self) s r a), next)
  | update_propagate self next a mn mx :
      level < max_level self → a ∉ visited_addresses self → a ∉ cur →
      update level cur (self, next) (add_constraint self a mn mx, {[a]} ∪ next)
  | update_log self next tx :
      update level cur (self, next)
        (set_transactions self (all_transactions self ++ [tx]), next)
  | update_request self next :
      update level cur (self, next)
        (set_requests self (S (requests_made self)), next).

(** The lookup failed: the request raised, or the status is not 200. *)
Definition lookup_failed (resp : http_result) : Prop :=
  match resp with
  | RequestException => True
  | Response status_code _ => status_code ≠ 200
  end.

(** Every edge joins a sender and a different receiver of a logged
    transaction that has a participant in [Q]. *)
Definition edges_from_log (Q : gset string) (self : BitcoinAnalyzer) : Prop :=
  ∀ s r, is_Some (edges (graph self) !! (s, r)) →
    ∃ tx p, tx ∈ all_transactions self ∧ s ∈ tx_senders tx ∧ r ∈ tx_receivers tx ∧
            s ≠ r ∧ p ∈ tx_senders tx ∪ tx_receivers tx ∧ p ∈ Q.

(** [k] more copies of the window [w] after the windows an address has. *)
Definition append_windows (k : nat) (w : Z * Z)
    (o : option (list (Z * Z))) : option (list (Z * Z)) :=
  match k with
  | O => o
  | _ => Some (default [] o ++ replicate k w)
  end.

(** In how many of the pairs of [s] with a receiver the address [a] takes
    part as the sender or as the receiver, sender and receiver different. *)
Definition pairs_with (a s : string) (rs : list string) : nat :=
  length (filter (λ r, s ≠ r ∧ (a = s ∨ a = r)) rs).

Definition pair_count (a : string) (ss rs : list string) : nat :=
  sum_list_with (λ s, pairs_with a s rs) ss.

(** The same number in terms of the two sets. *)
Definition pair_count_sets (a : string) (senders receivers : gset string) : nat :=
  ((if decide (a ∈ senders) then size (receivers ∖ {[a]}) else 0) +
   (if decide (a ∈ receivers) then size (senders ∖ {[a]}) else 0))%nat.

(** What a step does for the address [a]: [k] more windows, and membership
    of the next frontier if [k] is positive. *)
Definition adds (a : string) (w : Z * Z) (k : nat)
    (st st' : BitcoinAnalyzer * gset string) : Prop :=
  address_constraints st'.1 !! a = append_windows k w (address_constraints st.1 !! a) ∧
  (a ∈ st'.2 ↔ a ∈ st.2 ∨ (0 < k)%nat).

(** One step along an edge of an edge set. *)
Definition step_in (E : gset (string * string)) (u v : string) : Prop := (u, v) ∈ E.

(** Every node is a seed or an end of an edge. *)
Definition nodes_accounted (self : BitcoinAnalyzer) : Prop :=
  ∀ n, n ∈ nodes (graph self) →
       n ∈ initial_addresses self ∨
       ∃ m, is_Some (edges (graph self) !! (n, m)) ∨ is_Some (edges (graph self) !! (m, n)).

(** The visited addresses and the next frontier are nodes of the graph. *)
Definition next_in_graph (st : BitcoinAnalyzer * gset string) : Prop :=
  visited_addresses st.1 ∪ st.2 ⊆ nodes (graph st.1).

(** Every edge carries the hash and the time of a logged transaction that
    has its tail among the senders and its head among the receivers. *)
Definition edges_carry_logged (self : BitcoinAnalyzer) : Prop :=
  ∀ s r a, edges (graph self) !! (s, r) = Some a →
    ∃ tx, tx ∈ all_transactions self ∧ a = tx_attr tx ∧
          s ∈ tx_senders tx ∧ r ∈ tx_receivers tx ∧ s ≠ r.

(** Every logged transaction has a visited participant with a window that
    contains the time of the transaction. *)
Definition log_in_windows (self : BitcoinAnalyzer) : Prop :=
  ∀ tx, tx ∈ all_transactions self →
    ∃ p, p ∈ tx_senders tx ∪ tx_receivers tx ∧ p ∈ visited_addresses self ∧
         is_tx_relevant self p (tx_time tx) = true.

(** The addresses that have windows are the visited ones, and no address has
    an empty list of windows. *)
Definition windows_match_visited (self : BitcoinAnalyzer) : Prop :=
  dom (address_constraints self) = visited_addresses self ∧
  ∀ a ws, address_constraints self !! a = Some ws → ws ≠ [].

(** The same during a level, whose frontier is visited. *)
Definition log_in_windows_level (cur : list string)
    (st : BitcoinAnalyzer * gset string) : Prop :=
  (∀ a, a ∈ cur → a ∈ visited_addresses st.1) ∧ log_in_windows st.1.

(** [x] is reachable from a present seed and reaches a present seed. *)
Definition between_seeds (self : BitcoinAnalyzer) (x : string) : Prop :=
  (∃ s1, s1 ∈ present_seeds self ∧ reaches (graph self) s1 x) ∧
  (∃ s2, s2 ∈ present_seeds self ∧ reaches (graph self) x s2).

(** ** Concrete runtimes and inputs used in examples *)

(** A service that answers every request with the same response. *)
Definition constant_runtime (resp : http_result) : Runtime :=
  MkRuntime elements (λ S, reflexivity (elements S)) (λ _ _, resp).

Definition simple_tx (h : string) (t : option Z) (senders receivers : list string) : tx_t :=
  Tx t (Some h) (Some ((λ a, Input (Some (PrevOut (Some a)))) <$> senders))
     (Some ((λ a, Output (Some a)) <$> receivers)).

(** The scenario of tests/test_analyzer.py. *)
Definition test_response : http_result :=
  Response 200 (JsonDict (Some [simple_tx "tx1" None ["addr1"] ["addr2"]])).

(** The graph of the pruning example: the seeds [A] and [B], the chain
    [A → X → B], and the dead end [X → Y]. *)
Definition chain_graph (A B X Y : string) : DiGraph :=
  add_edge
    (add_edge
       (add_edge (add_nodes_from empty_graph {[A; B]}) A X (EdgeAttr (Some "h1") 1))
       X B (EdgeAttr (Some "h2") 2))
    X Y (EdgeAttr (Some "h3") 3).

Definition chain_analyzer (A B X Y : string) : BitcoinAnalyzer :=
  MkAnalyzer {[A; B]} 1 (chain_graph A B X Y) {[A; B; X; Y]} [] ∅ 0.

(** * Properties *)

(** ** The scenario of the repository's test

    [test_analyze_simple]: one seed, [max_level = 1], a service that always
    answers with the one transaction from ["addr1"] to ["addr2"]. *)

Example test_analyze_simple :
  let R := constant_runtime test_response in
  let G := @analyze R (@init R ["addr1"] 1 None None) in
  has_edge G "addr1" "addr2" = true ∧ size (nodes G) = 2%nat ∧ size (edges G) = 1%nat.
Proof. repeat split; vm_compute; reflexivity. Qed.

(** The same transaction at a time outside the range the caller gave is not
    relevant: the graph keeps the seed alone. *)
Example test_analyze_out_of_range :
  let R := constant_runtime
             (Response 200 (JsonDict (Some [simple_tx "tx1" (Some 500) ["addr1"] ["addr2"]]))) in
  let G := @analyze R (@init R ["addr1"] 1 (Some (DateTime 1000)) (Some (DateTime 2000))) in
  elements (nodes G) = ["addr1"] ∧ size (edges G) = 0%nat.
Proof. repeat split; vm_compute; reflexivity. Qed.

(** ** Constraint store *)

Lemma any_window_true ws t :
  any_window ws t = true ↔ ∃ mn mx, (mn, mx) ∈ ws ∧ mn ≤ t ∧ t ≤ mx.
Proof.
  induction ws as [|[mn mx] ws IH]; simpl.
  - split; [done|]. intros (? & ? & Hin & _). by apply elem_of_nil in Hin.
  - case_bool_decide as Hw.
    + split; [|done]. intros _. exists mn, mx. split; [left|done].
    + rewrite IH. split.
      * intros (mn' & mx' & Hin & Hb). exists mn', mx'. split; [by right|done].
      * intros (mn' & mx' & Hin & Hb). apply elem_of_cons in Hin as [Heq|Hin].
        -- simplify_eq. done.
        -- by exists mn', mx'.
Qed.

Lemma is_tx_relevant_true self a t :
  is_tx_relevant self a t = true ↔
  ∃ ws mn mx, address_constraints self !! a = Some ws ∧ (mn, mx) ∈ ws ∧ mn ≤ t ∧ t ≤ mx.
Proof.
  unfold is_tx_relevant. destruct (address_constraints self !! a) as [ws|] eqn:Hc.
  - rewrite any_window_true. split.
    + intros (mn & mx & ?). by exists ws, mn, mx.
    + intros (ws' & mn & mx & ? & ?). simplify_eq. by exists mn, mx.
  - split; [done|]. by intros (? & ? & ? & ? & _).
Qed.

Lemma add_constraint_lookup_eq self a mn mx :
  address_constraints (add_constraint self a mn mx) !! a =
  Some (default [] (address_constraints self !! a) ++ [(mn, mx)]).
Proof.
  unfold add_constraint; simpl. rewrite lookup_insert_eq.
  destruct (address_constraints self !! a) eqn:Hc; simpl.
  - by rewrite Hc.
  - by rewrite lookup_insert_eq.
Qed.

Lemma add_constraint_lookup_ne self a b mn mx :
  a ≠ b →
  address_constraints (add_constraint self a mn mx) !! b = address_constraints self !! b.
Proof.
  intros Hne. unfold add_constraint; simpl. rewrite lookup_insert_ne by done.
  destruct (address_constraints self !! a); [done|]. by rewrite lookup_insert_ne.
Qed.

(** C3, as amended.  [is_tx_relevant] is true exactly when the address has a
    recorded window [(mn, mx)] with [mn ≤ t ≤ mx]; an address without a
    window is never relevant; and for an address whose only window is
    [(mn, mx)] the answer is false at [mn - 1] and at [mx + 1], and true at
    [mn] and at [mx] provided [mn ≤ mx]. *)
Theorem is_tx_relevant_windows (self : BitcoinAnalyzer) (a : string) :
  (∀ t, is_tx_relevant self a t = true ↔
        ∃ ws mn mx, address_constraints self !! a = Some ws ∧
                    (mn, mx) ∈ ws ∧ mn ≤ t ∧ t ≤ mx) ∧
  (address_constraints self !! a = None ∨ address_constraints self !! a = Some [] →
   ∀ t, is_tx_relevant self a t = false) ∧
  (∀ mn mx, address_constraints self !! a = Some [(mn, mx)] →
     is_tx_relevant self a (mn - 1) = false ∧
     is_tx_relevant self a (mx + 1) = false ∧
     (mn ≤ mx → is_tx_relevant self a mn = true ∧ is_tx_relevant self a mx = true)).
Proof.
  split; [intros t; apply is_tx_relevant_true|]. split.
  - intros [Hc|Hc] t; unfold is_tx_relevant; by rewrite Hc.
  - intros mn mx Hc. unfold is_tx_relevant. rewrite Hc. simpl.
    repeat split; repeat case_bool_decide; try done; lia.
Qed.

(** C3 at a concrete object: a seed with the window [(10, 20)]. *)
Lemma is_tx_relevant_windows_witness :
  let self := @init (constant_runtime RequestException) ["a"] 1
                (Some (DateTime 10)) (Some (DateTime 20)) in
  is_tx_relevant self "a" 9 = false ∧ is_tx_relevant self "a" 21 = false ∧
  is_tx_relevant self "a" 10 = true ∧ is_tx_relevant self "a" 20 = true.
Proof.
  intros self.
  destruct (is_tx_relevant_windows self "a") as (_ & _ & Hw).
  destruct (Hw 10 20 eq_refl) as (H9 & H21 & Hin).
  destruct (Hin ltac:(lia)) as [H10 H20].
  exact (conj H9 (conj H21 (conj H10 H20))).
Defined.

(** C3 as stated fails for a window whose lower bound exceeds its upper
    bound, which the constructor records when the start date is later than
    the end date: the only window of the seed is [(5, 3)] and the seed is not
    relevant at [t = 5], the lower bound. *)
Lemma is_tx_relevant_inverted_window :
  let self := @init (constant_runtime RequestException) ["a"] 1
                (Some (DateTime 5)) (Some (DateTime 3)) in
  address_constraints self !! "a" = Some [(5, 3)] ∧
  is_tx_relevant self "a" 5 = false.
Proof. split; reflexivity. Qed.

(** ** [__init__] *)

Section InitProperties.
Context {R : Runtime}.

Lemma set_order_elem_of (S : gset string) a : a ∈ set_order S ↔ a ∈ S.
Proof. by rewrite (set_order_perm S), elem_of_elements. Qed.

Lemma set_order_NoDup (S : gset string) : NoDup (set_order S).
Proof. rewrite (set_order_perm S). apply NoDup_elements. Qed.

Lemma set_order_length (S : gset string) : length (set_order S) = size S.
Proof. by rewrite (set_order_perm S). Qed.

Lemma foldl_add_constraint_notin l self a mn mx :
  a ∉ l →
  address_constraints (foldl (λ self addr, add_constraint self addr mn mx) self l) !! a
  = address_constraints self !! a.
Proof.
  revert self. induction l as [|b l IH]; intros self Hni; [done|].
  apply not_elem_of_cons in Hni as [Hne Hni]. simpl.
  rewrite IH by done. by apply add_constraint_lookup_ne.
Qed.

Lemma foldl_add_constraint_in l self a mn mx :
  NoDup l → a ∈ l →
  address_constraints (foldl (λ self addr, add_constraint self addr mn mx) self l) !! a
  = Some (default [] (address_constraints self !! a) ++ [(mn, mx)]).
Proof.
  revert self. induction l as [|b l IH]; intros self Hnd Hin.
  - by apply elem_of_nil in Hin.
  - apply NoDup_cons in Hnd as [Hnb Hnd]. simpl.
    apply elem_of_cons in Hin as [->|Hin].
    + rewrite foldl_add_constraint_notin by done. apply add_constraint_lookup_eq.
    + rewrite IH by done. rewrite add_constraint_lookup_ne; [done|].
      intros ->. done.
Qed.

Lemma foldl_add_constraint_fields l self mn mx :
  let self' := foldl (λ self addr, add_constraint self addr mn mx) self l in
  initial_addresses self' = initial_addresses self ∧
  max_level self' = max_level self ∧ graph self' = graph self ∧
  visited_addresses self' = visited_addresses self ∧
  all_transactions self' = all_transactions self ∧
  requests_made self' = requests_made self.
Proof.
  revert self. induction l as [|b l IH]; intros self; [done|].
  simpl. destruct (IH (add_constraint self b mn mx)) as (-> & -> & -> & -> & -> & ->).
  done.
Qed.

(** What the constructor records for an address. *)
Lemma init_constraints initial lvl sd ed a :
  address_constraints (init initial lvl sd ed) !! a =
  if decide (a ∈ initial) then
    Some [(match sd with Some d => timestamp d | None => 0 end,
           match ed with Some d => timestamp d | None => default_end_ts end)]
  else None.
Proof.
  unfold init. case_decide as Hin.
  - rewrite foldl_add_constraint_in; [done|apply set_order_NoDup|].
    apply set_order_elem_of. by apply elem_of_list_to_set.
  - rewrite foldl_add_constraint_notin; [done|].
    rewrite set_order_elem_of. by rewrite elem_of_list_to_set.
Qed.

End InitProperties.

(** ** The expansion engine: elementary updates

    Everything a level does to the object and to [next_level_addresses] is a
    sequence of four elementary updates.  Invariants of the engine are proved
    once per update. *)

Lemma foldl_rtc {A B} (Rel : relation A) (f : A → B → A) (l : list B) (a : A) :
  (∀ a b, rtc Rel a (f a b)) → rtc Rel a (foldl f a l).
Proof.
  intros Hf. revert a. induction l as [|b l IH]; intros a; simpl; [done|].
  etrans; [apply Hf|apply IH].
Qed.

Lemma rtc_invariant {A} (Rel : relation A) (P : A → Prop) a b :
  (∀ x y, Rel x y → P x → P y) → rtc Rel a b → P a → P b.
Proof. intros Hstep Hrtc. induction Hrtc; eauto. Qed.

Section EngineUpdates.
Context {R : Runtime}.

Lemma propagate_updates level cur mn mx st a :
  level < max_level st.1 →
  rtc (update level cur) st (propagate cur mn mx st a).
Proof.
  intros Hl. destruct st as [self next]. unfold propagate; simpl in *.
  case_bool_decide as Hnew; [|done].
  destruct Hnew. apply rtc_once. by constructor.
Qed.

Lemma propagate_max_level cur mn mx st a :
  max_level (propagate cur mn mx st a).1 = max_level st.1.
Proof. unfold propagate. by case_bool_decide. Qed.

Lemma visit_pair_updates level cur tx s st r :
  rtc (update level cur) st (visit_pair level cur tx s st r).
Proof.
  destruct st as [self next]. unfold visit_pair; simpl.
  case_bool_decide as Hne; [|done].
  eapply rtc_l; [by apply (update_edge level cur self next s r (tx_attr tx))|].
  case_bool_decide as Hl; [|done].
  etrans; [by apply propagate_updates|].
  apply propagate_updates. by rewrite propagate_max_level.
Qed.

Lemma visit_pairs_updates level cur tx ss rs st :
  rtc (update level cur) st (visit_pairs level cur tx ss rs st).
Proof.
  unfold visit_pairs. apply foldl_rtc. intros st' s.
  apply foldl_rtc. intros st'' r. apply visit_pair_updates.
Qed.

Lemma process_tx_updates level cur batch st tx :
  rtc (update level cur) st (process_tx level cur batch st tx).
Proof.
  destruct st as [self next]. unfold process_tx; simpl.
  destruct (tx_is_relevant self batch tx); [|done].
  eapply rtc_l; [apply update_log|]. apply visit_pairs_updates.
Qed.

Lemma fetch_updates level cur self next batch :
  rtc (update level cur) (self, next) ((fetch_batch_transactions self batch).2, next).
Proof.
  unfold fetch_batch_transactions. destruct batch as [|a batch]; [done|].
  destruct (fetch_try _); simpl; apply rtc_once; constructor.
Qed.

Lemma process_batch_updates level cur st batch :
  rtc (update level cur) st (process_batch level cur st batch).
Proof.
  destruct st as [self next]. unfold process_batch; simpl.
  pose proof (fetch_updates level cur self next batch) as Hf.
  destruct (fetch_batch_transactions self batch) as [txs self'].
  etrans; [exact Hf|]. apply foldl_rtc. intros; apply process_tx_updates.
Qed.

Lemma process_batches_updates level cur st bs :
  rtc (update level cur) st (foldl (process_batch level cur) st bs).
Proof. apply foldl_rtc. intros; apply process_batch_updates. Qed.

(** *** Invariants of a level *)

(** The fields no update touches. *)
Lemma updates_frame level cur st st' :
  rtc (update level cur) st st' →
  initial_addresses st'.1 = initial_addresses st.1 ∧
  max_level st'.1 = max_level st.1 ∧
  visited_addresses st'.1 = visited_addresses st.1.
Proof.
  intros Hrtc. induction Hrtc as [|x y z Hxy _ IH]; [done|].
  destruct IH as (-> & -> & ->). by destruct Hxy.
Qed.

Lemma updates_self_loop level cur st st' a :
  rtc (update level cur) st st' →
  edges (graph st'.1) !! (a, a) = edges (graph st.1) !! (a, a).
Proof.
  intros Hrtc. induction Hrtc as [|x y z Hxy _ IH]; [done|].
  rewrite IH. destruct Hxy; simpl; try done.
  apply lookup_insert_ne. congruence.
Qed.

Lemma add_edge_wf G u v a : graph_wf G → graph_wf (add_edge G u v a).
Proof.
  intros Hwf x y. unfold add_edge; simpl.
  destruct (decide ((u, v) = (x, y))) as [Heq|Hne].
  - simplify_eq. intros _. set_solver.
  - rewrite lookup_insert_ne by done. intros Hxy.
    destruct (Hwf _ _ Hxy). set_solver.
Qed.

Lemma empty_graph_wf : graph_wf empty_graph.
Proof. intros u v [x Hx]. simpl in Hx. by rewrite lookup_empty in Hx. Qed.

Lemma add_nodes_from_wf G ns : graph_wf G → graph_wf (add_nodes_from G ns).
Proof.
  intros Hwf u v Huv. destruct (Hwf u v Huv). simpl.
  split; by apply elem_of_union_l.
Qed.

Lemma updates_wf level cur st st' :
  rtc (update level cur) st st' → graph_wf (graph st.1) → graph_wf (graph st'.1).
Proof.
  intros Hrtc.
  apply (rtc_invariant (update level cur) (λ st, graph_wf (graph st.1)) st st'); [|done].
  intros x y Hxy Hx. destruct Hxy; simpl in *; try done. by apply add_edge_wf.
Qed.

(** Nodes are only added. *)
Lemma updates_nodes level cur st st' :
  rtc (update level cur) st st' → nodes (graph st.1) ⊆ nodes (graph st'.1).
Proof.
  intros Hrtc. induction Hrtc as [|x y z Hxy _ IH]; [done|].
  etrans; [|exact IH]. destruct Hxy; simpl; set_solver.
Qed.

(** The windows of an address that is visited or in the frontier are not
    touched. *)
Lemma updates_constraints_old level cur st st' a :
  rtc (update level cur) st st' →
  a ∈ visited_addresses st.1 ∨ a ∈ cur →
  address_constraints st'.1 !! a = address_constraints st.1 !! a.
Proof.
  intros Hrtc Ha. induction Hrtc as [|x y z Hxy Hyz IH]; [done|].
  assert (visited_addresses y.1 = visited_addresses x.1) as Hv.
  { by destruct Hxy. }
  rewrite IH by (by rewrite Hv). destruct Hxy; simpl in *; try done.
  apply add_constraint_lookup_ne. intros ->. tauto.
Qed.

(** The next frontier holds no visited address and no member of the current
    frontier. *)
Lemma updates_next_new level cur st st' :
  rtc (update level cur) st st' →
  (∀ a, a ∈ st.2 → (a ∉ visited_addresses st.1) ∧ (a ∉ cur)) →
  (∀ a, a ∈ st'.2 → (a ∉ visited_addresses st'.1) ∧ (a ∉ cur)).
Proof.
  intros Hrtc.
  apply (rtc_invariant (update level cur)
    (λ st, ∀ a, a ∈ st.2 → (a ∉ visited_addresses st.1) ∧ (a ∉ cur)) st st'); [|done].
  intros x y Hxy Hx. destruct Hxy; simpl in *; try done.
  intros b [->%elem_of_singleton|Hb]%elem_of_union; auto.
Qed.

(** At the last level nothing is propagated. *)
Lemma updates_last_level level cur st st' :
  rtc (update level cur) st st' → max_level st.1 ≤ level →
  st'.2 = st.2 ∧ address_constraints st'.1 = address_constraints st.1.
Proof.
  intros Hrtc Hl. induction Hrtc as [|x y z Hxy Hyz IH]; [done|].
  assert (max_level y.1 = max_level x.1) as Hm by (by destruct Hxy).
  destruct IH as [-> ->]; [by rewrite Hm|].
  destruct Hxy; simpl in *; try done. lia.
Qed.

(** The transaction log only grows. *)
Lemma updates_log level cur st st' :
  rtc (update level cur) st st' →
  all_transactions st.1 `prefix_of` all_transactions st'.1.
Proof.
  intros Hrtc. induction Hrtc as [|x y z Hxy _ IH]; [done|].
  etrans; [|exact IH]. destruct Hxy; simpl; try done.
  by apply prefix_app_r.
Qed.

End EngineUpdates.

(** ** The level loop *)

Section LevelLoop.
Context {R : Runtime}.

Lemma set_order_empty : set_order ∅ = [].
Proof.
  apply Permutation_nil_r. rewrite (set_order_perm ∅). by rewrite elements_empty.
Qed.

(** What a level leaves behind, in terms of the state its batches produce. *)
Lemma run_level_updates level cur self :
  ∃ st, rtc (update level cur) (self, ∅) st ∧
        run_level level cur self
        = (set_visited st.1 (visited_addresses st.1 ∪ st.2), set_order st.2).
Proof.
  exists (foldl (process_batch level cur) (self, ∅) (batches cur)).
  split; [apply process_batches_updates|done].
Qed.

(** A property of the object that every update and every growth of
    [visited] preserves holds after the loop. *)
Lemma level_loop_invariant (P : BitcoinAnalyzer → Prop) :
  (∀ level cur st st', rtc (update level cur) st st' → P st.1 → P st'.1) →
  (∀ self next, P self → P (set_visited self (visited_addresses self ∪ next))) →
  ∀ levels cur self, P self → P (level_loop levels cur self).
Proof.
  intros Hupd Hvis levels. induction levels as [|level rest IH]; intros cur self HP;
    [done|].
  destruct cur as [|c cur']; [done|].
  change (P (level_loop rest (run_level level (c :: cur') self).2
                             (run_level level (c :: cur') self).1)).
  apply IH. destruct (run_level_updates level (c :: cur') self) as (st & Hrtc & ->).
  apply Hvis. by apply (Hupd _ _ _ _ Hrtc).
Qed.

Lemma level_starts_invariant (P : list string → BitcoinAnalyzer → Prop) :
  (∀ level cur self, P cur self →
     P (run_level level cur self).2 (run_level level cur self).1) →
  ∀ levels cur self, P cur self →
    Forall (λ e : Z * list string * BitcoinAnalyzer, P e.1.2 e.2)
           (level_starts levels cur self).
Proof.
  intros Hstep levels. induction levels as [|level rest IH]; intros cur self HP;
    [constructor|].
  destruct cur as [|c cur']; [by repeat constructor|].
  change (Forall (λ e : Z * list string * BitcoinAnalyzer, P e.1.2 e.2)
            ((level, c :: cur', self) ::
             level_starts rest (run_level level (c :: cur') self).2
                               (run_level level (c :: cur') self).1)).
  constructor; [done|]. apply IH. by apply Hstep.
Qed.

Lemma run_level_visited level cur self :
  let st := run_level level cur self in
  visited_addresses st.1 = visited_addresses self ∪ list_to_set st.2 ∧
  (∀ a, a ∈ st.2 → (a ∉ visited_addresses self) ∧ (a ∉ cur)).
Proof.
  destruct (run_level_updates level cur self) as ([self' next] & Hrtc & Heq).
  rewrite Heq. simpl.
  destruct (updates_frame _ _ _ _ Hrtc) as (_ & _ & Hv). simpl in Hv.
  split.
  - rewrite Hv. f_equal. apply set_eq. intros a.
    by rewrite elem_of_list_to_set, set_order_elem_of.
  - intros a Ha%set_order_elem_of.
    pose proof (updates_next_new _ _ _ _ Hrtc) as Hnew. simpl in Hnew.
    rewrite <- Hv. apply Hnew; [|done]. intros b Hb. by apply not_elem_of_empty in Hb.
Qed.

Lemma init_graph initial lvl sd ed : graph (init initial lvl sd ed) = empty_graph.
Proof.
  unfold init.
  by destruct (foldl_add_constraint_fields (set_order (list_to_set initial))
    (MkAnalyzer (list_to_set initial) lvl empty_graph ∅ [] ∅ 0%nat)
    (match sd with Some d => timestamp d | None => 0 end)
    (match ed with Some d => timestamp d | None => default_end_ts end))
    as (_ & _ & -> & _).
Qed.

Lemma init_fields initial lvl sd ed :
  let self := init initial lvl sd ed in
  initial_addresses self = list_to_set initial ∧ max_level self = lvl ∧
  visited_addresses self = ∅ ∧ all_transactions self = [] ∧
  requests_made self = 0%nat.
Proof.
  unfold init.
  by destruct (foldl_add_constraint_fields (set_order (list_to_set initial))
    (MkAnalyzer (list_to_set initial) lvl empty_graph ∅ [] ∅ 0%nat)
    (match sd with Some d => timestamp d | None => 0 end)
    (match ed with Some d => timestamp d | None => default_end_ts end))
    as (-> & -> & _ & -> & -> & ->).
Qed.

(** The graph [analyze] returns is well formed, provided the one it starts
    from is. *)
Lemma analyze_state_wf self :
  graph_wf (graph self) → graph_wf (graph (analyze_state self)).
Proof.
  intros Hwf. unfold analyze_state.
  apply (level_loop_invariant (λ self, graph_wf (graph self))).
  - intros ????. apply updates_wf.
  - done.
  - simpl. intros u v Huv. destruct (Hwf u v Huv). set_solver.
Qed.

(** In particular the graph of a completed analysis is well formed. *)
Lemma analyze_init_wf initial lvl sd ed : graph_wf (analyze (init initial lvl sd ed)).
Proof. apply analyze_state_wf. rewrite init_graph. apply empty_graph_wf. Qed.

(** C6.  No step of the engine writes an edge from an address to itself:
    processing a transaction leaves the entry [(a, a)] of the edge dictionary
    as it was, and the graph [analyze] returns for a freshly constructed
    analyzer has no edge [(a, a)]. *)
Theorem no_self_loops :
  (∀ level cur batch st tx a,
     edges (graph (process_tx level cur batch st tx).1) !! (a, a)
     = edges (graph st.1) !! (a, a)) ∧
  (∀ initial lvl sd ed a,
     edges (analyze (init initial lvl sd ed)) !! (a, a) = None ∧
     has_edge (analyze (init initial lvl sd ed)) a a = false).
Proof.
  split.
  - intros. eapply updates_self_loop, process_tx_updates.
  - intros initial lvl sd ed a.
    assert (edges (analyze (init initial lvl sd ed)) !! (a, a) = None) as Hnone.
    { unfold analyze, analyze_state.
      apply (level_loop_invariant (λ self, edges (graph self) !! (a, a) = None)).
      - intros level cur st st' Hrtc. by rewrite (updates_self_loop _ _ _ _ a Hrtc).
      - done.
      - simpl. by rewrite init_graph. }
    split; [done|]. unfold has_edge. rewrite Hnone.
    apply bool_decide_eq_false. by intros [? ?].
Qed.

(** C9, as amended.  At the start of every level every address of the
    frontier is already in [visited].  When a level completes, the addresses of
    the next frontier are what is merged into [visited]; none of them was in
    [visited] or in the frontier of the level that found them. *)
Theorem frontier_is_visited :
  (∀ self0,
     Forall (λ e : Z * list string * BitcoinAnalyzer,
               ∀ a, a ∈ e.1.2 → a ∈ visited_addresses e.2)
            (level_starts (range (max_level self0 + 1))
               (analyze_start self0).2 (analyze_start self0).1)) ∧
  (∀ level cur self,
     let st := run_level level cur self in
     visited_addresses st.1 = visited_addresses self ∪ list_to_set st.2 ∧
     (∀ a, a ∈ st.2 → (a ∉ visited_addresses self) ∧ (a ∉ cur))).
Proof.
  split; [|apply run_level_visited].
  intros self0.
  apply (level_starts_invariant (λ cur self, ∀ a, a ∈ cur → a ∈ visited_addresses self)).
  - intros level cur self _ a Ha.
    destruct (run_level_visited level cur self) as [-> _]. set_solver.
  - simpl. intros a Ha%set_order_elem_of. set_solver.
Qed.

End LevelLoop.

(** ** The windows of the seeds *)

Section SeedWindows.
Context {R : Runtime}.

(** The analysis never touches the windows of a seed. *)
Lemma analyze_state_seed_constraints self a :
  a ∈ initial_addresses self →
  address_constraints (analyze_state self) !! a = address_constraints self !! a.
Proof.
  intros Hin. unfold analyze_state.
  apply (level_loop_invariant
    (λ s, a ∈ visited_addresses s ∧
          address_constraints s !! a = address_constraints self !! a)).
  - intros level cur st st' Hrtc [Hv Hc].
    destruct (updates_frame _ _ _ _ Hrtc) as (_ & _ & ->). split; [done|].
    rewrite <- Hc. apply (updates_constraints_old _ _ _ _ _ Hrtc). by left.
  - intros s next [Hv Hc]. split; [by apply elem_of_union_l|done].
  - split; [by apply elem_of_union_r|done].
Qed.

(** C10.  Without a start date and an end date every seed gets exactly the
    one window [[0, 99999999999]], and the analysis leaves it at that; a seed
    is then relevant at [t] exactly when [0 ≤ t ≤ 99999999999], so it is not
    relevant at [t = 100000000000] nor at any later time. *)
Theorem default_window (initial : list string) (lvl : Z) (a : string) :
  let self := init initial lvl None None in
  (a ∈ initial → address_constraints self !! a = Some [(0, 99999999999)]) ∧
  (a ∈ initial → ∀ t, is_tx_relevant self a t = true ↔ 0 ≤ t ∧ t ≤ 99999999999) ∧
  (∀ t, 99999999999 < t → is_tx_relevant self a t = false) ∧
  (a ∈ initial →
   address_constraints (analyze_state self) !! a = Some [(0, 99999999999)]).
Proof.
  intros self.
  assert (Hc : a ∈ initial → address_constraints self !! a = Some [(0, 99999999999)]).
  { intros Hin. unfold self. rewrite init_constraints. by rewrite decide_True. }
  split; [done|]. split; [|split].
  - intros Hin t. unfold is_tx_relevant. rewrite (Hc Hin). simpl.
    case_bool_decide; split; try done; intros; lia.
  - intros t Ht. unfold is_tx_relevant, self. rewrite init_constraints.
    case_decide; [simpl|done]. unfold default_end_ts.
    case_bool_decide; [lia|done].
  - intros Hin. rewrite analyze_state_seed_constraints; [by apply Hc|].
    destruct (init_fields initial lvl None None) as (Hi & _).
    unfold self. rewrite Hi. by apply elem_of_list_to_set.
Qed.

End SeedWindows.

(** C10 at a concrete seed. *)
Lemma default_window_witness :
  let self := @init (constant_runtime RequestException) ["addr1"] 1 None None in
  address_constraints self !! "addr1" = Some [(0, 99999999999)] ∧
  is_tx_relevant self "addr1" 99999999999 = true ∧
  is_tx_relevant self "addr1" 100000000000 = false.
Proof.
  intros self.
  destruct (@default_window (constant_runtime RequestException) ["addr1"] 1 "addr1")
    as (Hc & Hiff & Hlate & _).
  assert (Hin : "addr1" ∈ ["addr1"]) by (apply list_elem_of_In; simpl; auto).
  split; [exact (Hc Hin)|]. split.
  - apply (Hiff Hin). lia.
  - apply Hlate. lia.
Defined.

(** C9 as stated fails from the first level on: with the single seed
    ["a"], level 0 starts with ["a"] both in the frontier and in [visited]. *)
Lemma frontier_not_disjoint_from_visited :
  let R := constant_runtime RequestException in
  let self0 := @init R ["a"] 1 None None in
  ∃ self, head (@level_starts R (range (max_level self0 + 1))
                  (@analyze_start R self0).2 (@analyze_start R self0).1)
          = Some (0, ["a"], self) ∧
          "a" ∈ visited_addresses self.
Proof.
  intros R self0. eexists. split; [reflexivity|].
  vm_compute. reflexivity.
Qed.

(** ** One transaction *)

Section Transaction.
Context {R : Runtime}.

Lemma foldl_flag {A} (f : bool → A → bool) (p : A → bool) (l : list A) (b : bool) :
  (∀ acc x, f acc x = if p x then true else acc) →
  foldl f b l = true ↔ b = true ∨ ∃ x, x ∈ l ∧ p x = true.
Proof.
  intros Hf. revert b. induction l as [|y l IH]; intros b; simpl.
  - split; [by left|]. intros [?|(x & Hx & _)]; [done|]. by apply elem_of_nil in Hx.
  - rewrite IH, Hf. split.
    + intros [Hb|(x & Hx & Hp)].
      * destruct (p y) eqn:Hy; [|by left]. right. exists y. split; [left|done].
      * right. exists x. split; [by right|done].
    + intros [Hb|(x & Hx & Hp)].
      * left. rewrite Hb. by destruct (p y).
      * apply elem_of_cons in Hx as [->|Hx].
        -- left. by rewrite Hp.
        -- right. by exists x.
Qed.

Lemma foldl_preserves {A B C} (g : A → C) (f : A → B → A) (l : list B) (a : A) :
  (∀ a b, g (f a b) = g a) → g (foldl f a l) = g a.
Proof.
  intros Hf. revert a. induction l as [|b l IH]; intros a; simpl; [done|].
  by rewrite IH, Hf.
Qed.

(** A transaction is relevant exactly when one of its participants is in the
    batch and has a window that contains the time of the transaction. *)
Lemma tx_is_relevant_true self batch tx :
  tx_is_relevant self batch tx = true ↔
  ∃ addr, addr ∈ tx_senders tx ∪ tx_receivers tx ∧ addr ∈ batch ∧
          is_tx_relevant self addr (tx_time tx) = true.
Proof.
  unfold tx_is_relevant.
  rewrite (foldl_flag _ (λ addr, bool_decide (addr ∈ batch) &&
                                 is_tx_relevant self addr (tx_time tx))).
  - split.
    + intros [?|(x & Hx & Hp)]; [done|]. apply andb_true_iff in Hp as [Hb Hr].
      apply bool_decide_eq_true in Hb. apply set_order_elem_of in Hx. by exists x.
    + intros (x & Hx & Hb & Hr). right. exists x. rewrite set_order_elem_of.
      split; [done|]. apply andb_true_iff. by rewrite bool_decide_eq_true.
  - intros acc addr. by destruct (bool_decide (addr ∈ batch)),
                          (is_tx_relevant self addr (tx_time tx)).
Qed.

(** Relevance only reads the windows of the addresses of the batch. *)
Lemma tx_is_relevant_ext self self' batch tx :
  (∀ a, a ∈ batch → address_constraints self' !! a = address_constraints self !! a) →
  tx_is_relevant self' batch tx = tx_is_relevant self batch tx.
Proof.
  intros Hc. apply eq_true_iff_eq. rewrite !tx_is_relevant_true.
  split; intros (x & Hx & Hb & Hr); exists x; (split; [done|]); (split; [done|]);
    unfold is_tx_relevant in *; [by rewrite <- (Hc x Hb)|by rewrite (Hc x Hb)].
Qed.

Lemma propagate_graph cur mn mx st a :
  graph (propagate cur mn mx st a).1 = graph st.1.
Proof. unfold propagate. by case_bool_decide. Qed.

(** *** Edges written for one transaction *)

Lemma visit_pair_edges level cur tx s st r u v :
  edges (graph (visit_pair level cur tx s st r).1) !! (u, v) =
  if decide (s ≠ r ∧ u = s ∧ v = r) then Some (tx_attr tx)
  else edges (graph st.1) !! (u, v).
Proof.
  unfold visit_pair. case_bool_decide as Hne.
  - assert (edges (graph (set_graph st.1 (add_edge (graph st.1) s r (tx_attr tx)))) !! (u, v)
            = if decide (s ≠ r ∧ u = s ∧ v = r) then Some (tx_attr tx)
              else edges (graph st.1) !! (u, v)) as Hadd.
    { simpl. case_decide as Hd.
      - destruct Hd as (_ & -> & ->). apply lookup_insert_eq.
      - apply lookup_insert_ne. intros [= -> ->]. tauto. }
    case_bool_decide; [|done]. by rewrite !propagate_graph.
  - rewrite decide_False by tauto. done.
Qed.

Lemma visit_receivers_edges level cur tx s rs st u v :
  edges (graph (foldl (visit_pair level cur tx s) st rs).1) !! (u, v) =
  if decide (u = s ∧ v ∈ rs ∧ u ≠ v) then Some (tx_attr tx)
  else edges (graph st.1) !! (u, v).
Proof.
  induction rs as [|r rs IH] using rev_ind.
  - rewrite decide_False; [done|]. intros (_ & Hin & _). by apply elem_of_nil in Hin.
  - rewrite foldl_snoc, visit_pair_edges, IH.
    destruct (decide (s ≠ r ∧ u = s ∧ v = r)) as [Hd1|Hd1],
             (decide (u = s ∧ v ∈ rs ∧ u ≠ v)) as [Hd2|Hd2],
             (decide (u = s ∧ v ∈ rs ++ [r] ∧ u ≠ v)) as [Hd3|Hd3];
      try done; exfalso; rewrite elem_of_app, list_elem_of_singleton in Hd3;
      intuition congruence.
Qed.

Lemma visit_pairs_edges level cur tx ss rs st u v :
  edges (graph (visit_pairs level cur tx ss rs st).1) !! (u, v) =
  if decide (u ∈ ss ∧ v ∈ rs ∧ u ≠ v) then Some (tx_attr tx)
  else edges (graph st.1) !! (u, v).
Proof.
  unfold visit_pairs. induction ss as [|s ss IH] using rev_ind.
  - rewrite decide_False; [done|]. intros (Hin & _). by apply elem_of_nil in Hin.
  - rewrite foldl_snoc. cbv beta. rewrite visit_receivers_edges, IH.
    destruct (decide (u = s ∧ v ∈ rs ∧ u ≠ v)) as [Hd1|Hd1],
             (decide (u ∈ ss ∧ v ∈ rs ∧ u ≠ v)) as [Hd2|Hd2],
             (decide (u ∈ ss ++ [s] ∧ v ∈ rs ∧ u ≠ v)) as [Hd3|Hd3];
      try done; exfalso; rewrite elem_of_app, list_elem_of_singleton in Hd3;
      intuition congruence.
Qed.

(** The edge dictionary after one transaction: the pairs of a sender and a
    different receiver of a relevant transaction carry its hash and time; all
    other entries are as before. *)
Lemma process_tx_edges level cur batch st tx u v :
  edges (graph (process_tx level cur batch st tx).1) !! (u, v) =
  if decide (tx_is_relevant st.1 batch tx = true ∧
             u ∈ tx_senders tx ∧ v ∈ tx_receivers tx ∧ u ≠ v)
  then Some (tx_attr tx)
  else edges (graph st.1) !! (u, v).
Proof.
  unfold process_tx. destruct (tx_is_relevant st.1 batch tx) eqn:Hrel.
  - rewrite visit_pairs_edges. simpl.
    destruct (decide (u ∈ set_order (tx_senders tx) ∧
                      v ∈ set_order (tx_receivers tx) ∧ u ≠ v)) as [Hd|Hd];
      rewrite !set_order_elem_of in Hd.
    + by rewrite decide_True.
    + rewrite decide_False; [done|]. tauto.
  - rewrite decide_False; [done|]. intros (? & _). done.
Qed.

Lemma propagate_log cur mn mx st a :
  all_transactions (propagate cur mn mx st a).1 = all_transactions st.1.
Proof. unfold propagate. by case_bool_decide. Qed.

Lemma visit_pair_log level cur tx s st r :
  all_transactions (visit_pair level cur tx s st r).1 = all_transactions st.1.
Proof.
  unfold visit_pair. case_bool_decide; [|done].
  case_bool_decide; [|done]. by rewrite !propagate_log.
Qed.

(** A relevant transaction is appended to the log, and only a relevant
    one. *)
Lemma process_tx_log level cur batch st tx :
  all_transactions (process_tx level cur batch st tx).1 =
  if tx_is_relevant st.1 batch tx then all_transactions st.1 ++ [tx]
  else all_transactions st.1.
Proof.
  unfold process_tx. destruct (tx_is_relevant st.1 batch tx); [|done].
  unfold visit_pairs.
  rewrite (foldl_preserves (λ st, all_transactions st.1)); [done|].
  intros st' s. rewrite (foldl_preserves (λ st, all_transactions st.1)); [done|].
  intros st'' r. apply visit_pair_log.
Qed.

End Transaction.

(** ** Several transactions of one batch *)

Section Batch.
Context {R : Runtime}.

(** Within a level the relevance of a transaction for a batch of the frontier
    does not depend on what was processed before it. *)
Lemma updates_relevance level cur batch st st' tx :
  batch ⊆ cur → rtc (update level cur) st st' →
  tx_is_relevant st'.1 batch tx = tx_is_relevant st.1 batch tx.
Proof.
  intros Hsub Hrtc. apply tx_is_relevant_ext. intros a Ha.
  apply (updates_constraints_old _ _ _ _ _ Hrtc). right. by apply Hsub.
Qed.

Lemma process_txs_updates level cur batch st txs :
  rtc (update level cur) st (foldl (process_tx level cur batch) st txs).
Proof. apply foldl_rtc. intros; apply process_tx_updates. Qed.

(** Every batch the engine forms is a part of the frontier. *)
Lemma batches_subseteq cur batch : batch ∈ batches cur → batch ⊆ cur.
Proof.
  unfold batches. intros (k & -> & _)%list_elem_of_fmap a Ha.
  apply elem_of_take in Ha as (i & Ha & _).
  rewrite lookup_drop in Ha. by apply list_elem_of_lookup_2 in Ha.
Qed.

(** Transactions that do not write the pair leave its entry alone. *)
Lemma process_txs_edge_kept level cur batch st st0 txs s r :
  batch ⊆ cur → rtc (update level cur) st0 st →
  Forall (λ tx', ¬ (tx_is_relevant st0.1 batch tx' = true ∧
                    s ∈ tx_senders tx' ∧ r ∈ tx_receivers tx')) txs →
  edges (graph (foldl (process_tx level cur batch) st txs).1) !! (s, r)
  = edges (graph st.1) !! (s, r).
Proof.
  intros Hsub Hrtc Hall. revert st Hrtc.
  induction Hall as [|tx' txs Hno _ IH]; intros st Hrtc; simpl; [done|].
  rewrite IH by (etrans; [exact Hrtc|apply process_tx_updates]).
  rewrite process_tx_edges. rewrite decide_False; [done|].
  rewrite (updates_relevance _ _ _ _ _ _ Hsub Hrtc). tauto.
Qed.

(** Every relevant transaction of the sequence ends up in the log. *)
Lemma process_txs_logged level cur batch st st0 txs tx' :
  batch ⊆ cur → rtc (update level cur) st0 st →
  tx' ∈ txs → tx_is_relevant st0.1 batch tx' = true →
  tx' ∈ all_transactions (foldl (process_tx level cur batch) st txs).1.
Proof.
  intros Hsub Hrtc Hin Hrel. revert st Hrtc.
  induction txs as [|t txs IH]; intros st Hrtc; [by apply elem_of_nil in Hin|].
  simpl. apply elem_of_cons in Hin as [->|Hin].
  - pose proof (process_txs_updates level cur batch
                  (process_tx level cur batch st t) txs) as Hrest.
    apply updates_log in Hrest. eapply elem_of_prefix; [|exact Hrest].
    rewrite process_tx_log, (updates_relevance _ _ _ _ _ _ Hsub Hrtc), Hrel.
    apply elem_of_app. right. apply list_elem_of_here.
  - apply IH; [done|]. etrans; [exact Hrtc|apply process_tx_updates].
Qed.

(** A key of a dictionary occurs once among its entries. *)
Lemma map_entry_unique {V} (m : gmap (string * string) V) k x :
  m !! k = Some x →
  length (filter (λ kv : (string * string) * V, kv.1 = k) (map_to_list m)) = 1%nat.
Proof.
  intros Hk.
  assert (filter (λ kv : (string * string) * V, kv.1 = k) (map_to_list m) ≡ₚ [(k, x)])
    as ->; [|done].
  apply NoDup_Permutation.
  - apply NoDup_filter, NoDup_map_to_list.
  - apply NoDup_singleton.
  - intros [k' x']. rewrite list_elem_of_filter, elem_of_map_to_list,
      list_elem_of_singleton. simpl. split.
    + intros [-> Hk']. congruence.
    + intros [= -> ->]. done.
Qed.

(** C7.  Let [s ≠ r].  Whatever was processed before, a transaction that
    is relevant and has [s] among its senders and [r] among its receivers
    leaves one entry for [(s, r)] in the edge dictionary, with its own hash
    and time, and is appended to the log; any other transaction leaves the
    entry for [(s, r)] as it was.  So when a batch of the frontier answers
    with [pre ++ tx :: post], where [tx] is such a transaction and no
    transaction of [post] is, the entry for [(s, r)] after the whole sequence
    is the one [tx] wrote, whatever [pre] wrote, and every relevant
    transaction of the sequence is in the log. *)
Theorem edge_last_write (s r : string) :
  s ≠ r →
  (∀ level cur batch st tx,
     let st' := process_tx level cur batch st tx in
     let writes := tx_is_relevant st.1 batch tx = true ∧
                   s ∈ tx_senders tx ∧ r ∈ tx_receivers tx in
     (writes →
        edges (graph st'.1) !! (s, r) = Some (tx_attr tx) ∧
        length (filter (λ kv : (string * string) * edge_attr, kv.1 = (s, r))
                       (map_to_list (edges (graph st'.1)))) = 1%nat ∧
        all_transactions st'.1 = all_transactions st.1 ++ [tx]) ∧
     (¬ writes → edges (graph st'.1) !! (s, r) = edges (graph st.1) !! (s, r))) ∧
  (∀ level cur batch st pre tx post,
     batch ⊆ cur →
     tx_is_relevant st.1 batch tx = true →
     s ∈ tx_senders tx → r ∈ tx_receivers tx →
     Forall (λ tx', ¬ (tx_is_relevant st.1 batch tx' = true ∧
                       s ∈ tx_senders tx' ∧ r ∈ tx_receivers tx')) post →
     let st' := foldl (process_tx level cur batch) st (pre ++ tx :: post) in
     edges (graph st'.1) !! (s, r) = Some (tx_attr tx) ∧
     length (filter (λ kv : (string * string) * edge_attr, kv.1 = (s, r))
                    (map_to_list (edges (graph st'.1)))) = 1%nat ∧
     (∀ tx', tx' ∈ pre ++ tx :: post → tx_is_relevant st.1 batch tx' = true →
             tx' ∈ all_transactions st'.1)).
Proof.
  intros Hne. split.
  - intros level cur batch st tx st' writes. split.
    + intros (Hrel & Hs & Hr).
      assert (edges (graph st'.1) !! (s, r) = Some (tx_attr tx)) as Hedge.
      { unfold st'. rewrite process_tx_edges. by rewrite decide_True. }
      split; [done|]. split; [by eapply map_entry_unique|].
      unfold st'. by rewrite process_tx_log, Hrel.
    + intros Hno. unfold st'. rewrite process_tx_edges.
      rewrite decide_False; [done|]. unfold writes in Hno. tauto.
  - intros level cur batch st pre tx post Hsub Hrel Hs Hr Hpost st'.
    assert (edges (graph st'.1) !! (s, r) = Some (tx_attr tx)) as Hedge.
    { unfold st'. rewrite foldl_app. simpl.
      pose proof (process_txs_updates level cur batch st pre) as Hpre.
      rewrite (process_txs_edge_kept level cur batch _ st post s r Hsub); [|
        etrans; [exact Hpre|apply process_tx_updates] | done].
      rewrite process_tx_edges, decide_True; [done|].
      by rewrite (updates_relevance _ _ _ _ _ _ Hsub Hpre). }
    split; [done|]. split; [by eapply map_entry_unique|].
    intros tx' Hin Hrel'. by apply (process_txs_logged level cur batch st st).
Qed.

End Batch.

(** C7 at a concrete batch: two transactions from ["a"] to ["b"], the second
    one written last. *)
Lemma edge_last_write_witness :
  let R := constant_runtime RequestException in
  let tx1 := simple_tx "tx1" (Some 100) ["a"] ["b"] in
  let tx2 := simple_tx "tx2" (Some 200) ["a"] ["b"] in
  let st := ((@analyze_start R (@init R ["a"] 1 None None)).1, (∅ : gset string)) in
  let st' := foldl (@process_tx R 0 ["a"] ["a"]) st ([tx1] ++ tx2 :: []) in
  edges (graph st'.1) !! ("a", "b") = Some (EdgeAttr (Some "tx2") 200) ∧
  length (filter (λ kv : (string * string) * edge_attr, kv.1 = ("a", "b"))
                 (map_to_list (edges (graph st'.1)))) = 1%nat ∧
  tx1 ∈ all_transactions st'.1 ∧ tx2 ∈ all_transactions st'.1.
Proof.
  intros R tx1 tx2 st st'.
  assert (Hsub : ["a"] ⊆ ["a"]) by (intros x Hx; exact Hx).
  assert (Hrel : @tx_is_relevant R st.1 ["a"] tx2 = true) by (vm_compute; reflexivity).
  assert (Hs : "a" ∈ tx_senders tx2) by (vm_compute; reflexivity).
  assert (Hr : "b" ∈ tx_receivers tx2) by (vm_compute; reflexivity).
  assert (Hne : "a" ≠ "b") by discriminate.
  destruct (@edge_last_write R "a" "b" Hne) as [_ Hseq].
  destruct (Hseq 0 ["a"] ["a"] st [tx1] tx2 [] Hsub Hrel Hs Hr (Forall_nil_2 _))
    as (He & Hone & Hlog).
  split; [exact He|]. split; [exact Hone|]. split.
  - apply Hlog; [|vm_compute; reflexivity]. apply list_elem_of_here.
  - apply Hlog; [|exact Hrel]. apply list_elem_of_further, list_elem_of_here.
Defined.

(** ** Failed lookups *)

Section Fetch.
Context {R : Runtime}.

Lemma fetch_try_failed resp :
  lookup_failed resp → fetch_try resp = Raised ∨ fetch_try resp = Ok [].
Proof.
  destruct resp as [|code body]; simpl; [by left|].
  intros Hne. right. by rewrite bool_decide_eq_false_2.
Qed.

(** C8.  When the lookup for a batch fails (the request raises, or the
    response has a status other than 200), and also when the batch is empty
    and nothing is looked up, [fetch_batch_transactions] returns the empty
    list: whatever the [try] block raised is caught.  The engine then
    leaves the graph, the windows, [visited], the log and the next frontier as
    they were, and goes on with the remaining batches of the level. *)
Theorem fetch_failure_is_empty (self : BitcoinAnalyzer) (batch : list string) :
  lookup_failed (requests_get (requests_made self) (batch_url batch)) ∨ batch = [] →
  (fetch_batch_transactions self batch).1 = [] ∧
  ∀ level cur next rest,
    let st' := process_batch level cur (self, next) batch in
    st' = ((fetch_batch_transactions self batch).2, next) ∧
    graph st'.1 = graph self ∧
    address_constraints st'.1 = address_constraints self ∧
    visited_addresses st'.1 = visited_addresses self ∧
    all_transactions st'.1 = all_transactions self ∧
    foldl (process_batch level cur) (self, next) (batch :: rest)
    = foldl (process_batch level cur) st' rest.
Proof.
  intros Hfail.
  assert ((fetch_batch_transactions self batch).1 = [] ∧
          graph (fetch_batch_transactions self batch).2 = graph self ∧
          address_constraints (fetch_batch_transactions self batch).2
          = address_constraints self ∧
          visited_addresses (fetch_batch_transactions self batch).2
          = visited_addresses self ∧
          all_transactions (fetch_batch_transactions self batch).2
          = all_transactions self) as (Hnil & Hg & Hc & Hv & Hl).
  { unfold fetch_batch_transactions. destruct batch as [|a batch]; [done|].
    destruct Hfail as [Hfail|?]; [|done].
    by destruct (fetch_try_failed _ Hfail) as [-> | ->]. }
  split; [done|]. intros level cur next rest st'.
  assert (st' = ((fetch_batch_transactions self batch).2, next)) as Hst.
  { unfold st', process_batch. simpl.
    destruct (fetch_batch_transactions self batch) as [txs self'].
    simpl in Hnil. by rewrite Hnil. }
  split; [done|].
  assert (foldl (process_batch level cur) (self, next) (batch :: rest)
          = foldl (process_batch level cur) st' rest) as Hrest by done.
  rewrite Hst at 1 2 3 4. simpl. done.
Qed.

End Fetch.

(** C8 at a concrete run: the service answers 503, the batch yields no
    transaction and the graph stays as it was. *)
Lemma fetch_failure_is_empty_witness :
  let R := constant_runtime (Response 503 JsonInvalid) in
  let self := (@analyze_start R (@init R ["addr1"] 1 None None)).1 in
  (@fetch_batch_transactions R self ["addr1"]).1 = [] ∧
  graph (@process_batch R 0 ["addr1"] (self, ∅) ["addr1"]).1 = graph self.
Proof.
  intros R self.
  assert (Hfail : lookup_failed (@requests_get R (requests_made self)
                                   (batch_url ["addr1"])) ∨ ["addr1"] = [])
    by (left; vm_compute; discriminate).
  destruct (@fetch_failure_is_empty R self ["addr1"] Hfail) as [Hnil Hrun].
  split; [exact Hnil|].
  destruct (Hrun 0 ["addr1"] ∅ []) as (_ & Hg & _). exact Hg.
Defined.

(** ** Where edges come from, and the last level *)

Section Provenance.
Context {R : Runtime}.

Lemma foldl_invariant_in {A B} (P : A → Prop) (f : A → B → A) (l : list B) (a : A) :
  (∀ a b, b ∈ l → P a → P (f a b)) → P a → P (foldl f a l).
Proof.
  revert a. induction l as [|b l IH]; intros a Hf Ha; simpl; [done|].
  apply IH.
  - intros a' b' Hb'. apply Hf. by right.
  - apply Hf; [left|done].
Qed.

Lemma edges_from_log_mono Q Q' self :
  Q ⊆ Q' → edges_from_log Q self → edges_from_log Q' self.
Proof.
  intros Hsub Hinv s r Hsr. destruct (Hinv s r Hsr) as (tx & p & ? & ? & ? & ? & ? & ?).
  exists tx, p. repeat split; try done. by apply Hsub.
Qed.

Lemma process_tx_edges_from_log Q level cur batch st tx :
  (∀ a, a ∈ batch → a ∈ Q) →
  edges_from_log Q st.1 → edges_from_log Q (process_tx level cur batch st tx).1.
Proof.
  intros Hsub Hinv s r. rewrite process_tx_edges, process_tx_log.
  destruct (tx_is_relevant st.1 batch tx) eqn:Hrel.
  - case_decide as Hd.
    + intros _. destruct Hd as (_ & Hs & Hr & Hne).
      apply tx_is_relevant_true in Hrel as (p & Hp & Hb & _).
      exists tx, p. repeat split; try done; [|by apply Hsub].
      apply elem_of_app. right. apply list_elem_of_here.
    + intros Hsr. destruct (Hinv s r Hsr) as (tx' & p & ? & ? & ? & ? & ? & ?).
      exists tx', p. repeat split; try done. apply elem_of_app. by left.
  - rewrite decide_False by (intros (? & _); done). apply Hinv.
Qed.

Lemma fetch_fields self batch :
  let self' := (fetch_batch_transactions self batch).2 in
  graph self' = graph self ∧ all_transactions self' = all_transactions self ∧
  visited_addresses self' = visited_addresses self ∧
  address_constraints self' = address_constraints self ∧
  max_level self' = max_level self.
Proof.
  unfold fetch_batch_transactions. destruct batch; [done|].
  by destruct (fetch_try _).
Qed.

Lemma process_batch_edges_from_log Q level cur st batch :
  (∀ a, a ∈ batch → a ∈ Q) →
  edges_from_log Q st.1 → edges_from_log Q (process_batch level cur st batch).1.
Proof.
  intros Hsub Hinv. unfold process_batch.
  destruct (fetch_fields st.1 batch) as (Hg & Hl & _).
  destruct (fetch_batch_transactions st.1 batch) as [txs self']. simpl in *.
  apply (foldl_invariant_in (λ st, edges_from_log Q st.1)).
  - intros st' tx _. by apply process_tx_edges_from_log.
  - simpl. intros s r. rewrite Hg, Hl. apply Hinv.
Qed.

Lemma run_level_edges_from_log level cur self :
  (∀ a, a ∈ cur → a ∈ visited_addresses self) →
  edges_from_log (visited_addresses self) self →
  edges_from_log (visited_addresses (run_level level cur self).1)
                 (run_level level cur self).1.
Proof.
  intros Hcur Hinv.
  apply (edges_from_log_mono (visited_addresses self)).
  { destruct (run_level_visited level cur self) as [-> _]. apply union_subseteq_l. }
  unfold run_level. simpl.
  apply (foldl_invariant_in (λ st, edges_from_log (visited_addresses self) st.1)
           (process_batch level cur) (batches cur) (self, ∅)); [|done].
  intros st batch Hb. apply process_batch_edges_from_log.
  intros a Ha. apply Hcur. by apply (batches_subseteq cur batch).
Qed.

(** In the state [analyze] ends in, every edge joins a sender and a different
    receiver of a logged transaction one of whose participants was
    expanded. *)
Lemma analyze_edges_from_log initial lvl sd ed :
  let self := analyze_state (init initial lvl sd ed) in
  edges_from_log (visited_addresses self) self.
Proof.
  unfold analyze_state.
  set (start := analyze_start (init initial lvl sd ed)).
  assert ((∀ a, a ∈ start.2 → a ∈ visited_addresses start.1) ∧
          edges_from_log (visited_addresses start.1) start.1) as Hstart.
  { split.
    - simpl. intros a Ha%set_order_elem_of. by apply elem_of_union_r.
    - intros s r. simpl. rewrite init_graph. simpl. rewrite lookup_empty.
      by intros [? ?]. }
  destruct (init_fields initial lvl sd ed) as (_ & -> & _).
  generalize (range (lvl + 1)). revert Hstart.
  generalize start.1 start.2. intros self cur Hstart levels.
  revert self cur Hstart.
  induction levels as [|level rest IH]; intros self cur [Hcur Hinv]; [done|].
  destruct cur as [|c cur']; [done|].
  change (level_loop (level :: rest) (c :: cur') self)
    with (level_loop rest (run_level level (c :: cur') self).2
                          (run_level level (c :: cur') self).1).
  apply IH. split; [|by apply run_level_edges_from_log].
  intros a Ha. destruct (run_level_visited level (c :: cur') self) as [-> _].
  apply elem_of_union_r. by apply elem_of_list_to_set.
Qed.

(** A level whose number is [max_level] or more adds nothing to the next
    frontier. *)
Lemma run_level_last level cur self :
  max_level self ≤ level →
  (run_level level cur self).2 = [] ∧
  visited_addresses (run_level level cur self).1 = visited_addresses self ∧
  address_constraints (run_level level cur self).1 = address_constraints self.
Proof.
  intros Hl. destruct (run_level_updates level cur self) as ([self' next] & Hrtc & ->).
  destruct (updates_last_level _ _ _ _ Hrtc Hl) as [Hn Hc].
  destruct (updates_frame _ _ _ _ Hrtc) as (_ & _ & Hv).
  simpl in *. subst next. rewrite set_order_empty, Hv, Hc.
  split; [done|]. split; [|done]. apply union_empty_r_L.
Qed.

Lemma level_loop_single level cur self :
  level_loop [level] cur self =
  match cur with [] => self | _ => (run_level level cur self).1 end.
Proof. by destruct cur. Qed.

Lemma level_starts_single level cur self :
  level_starts [level] cur self = [(level, cur, self)].
Proof. by destruct cur. Qed.

(** C5, as amended.  A transaction processed at the level [max_level] adds
    no address to the next frontier and no window, but the edges of a
    relevant transaction are written all the same, between every sender and
    every different receiver.  For [max_level = 0] the run has the single
    level 0, its next frontier is empty, [visited] ends as the seed set and
    the windows as the constructor left them; every edge of the final graph
    joins a sender and a different receiver of a logged transaction that has a
    seed among its participants (the two ends need not be seeds). *)
Theorem last_level_does_not_propagate :
  (∀ cur batch st tx,
     let st' := process_tx (max_level st.1) cur batch st tx in
     st'.2 = st.2 ∧ address_constraints st'.1 = address_constraints st.1) ∧
  (∀ cur batch st tx s r,
     tx_is_relevant st.1 batch tx = true →
     s ∈ tx_senders tx → r ∈ tx_receivers tx → s ≠ r →
     edges (graph (process_tx (max_level st.1) cur batch st tx).1) !! (s, r)
     = Some (tx_attr tx)) ∧
  (∀ initial sd ed,
     let self0 := init initial 0 sd ed in
     let self := analyze_state self0 in
     Forall (λ e : Z * list string * BitcoinAnalyzer,
               e.1.1 = 0 ∧ (run_level e.1.1 e.1.2 e.2).2 = [])
            (level_starts (range (max_level self0 + 1))
               (analyze_start self0).2 (analyze_start self0).1) ∧
     visited_addresses self = list_to_set initial ∧
     address_constraints self = address_constraints self0 ∧
     edges_from_log (list_to_set initial) self).
Proof.
  split; [|split].
  - intros cur batch st tx st'.
    apply (updates_last_level (max_level st.1) cur st st'); [|done].
    apply process_tx_updates.
  - intros cur batch st tx s r Hrel Hs Hr Hne.
    rewrite process_tx_edges. by rewrite decide_True.
  - intros initial sd ed self0 self.
    destruct (init_fields initial 0 sd ed) as (Hi & Hm & Hv & _).
    fold self0 in Hi, Hm, Hv.
    assert (visited_addresses self = list_to_set initial ∧
            address_constraints self = address_constraints self0) as [Hvis Hcon].
    { unfold self, analyze_state. rewrite Hm.
      change (range (0 + 1)) with [0]. rewrite level_loop_single.
      assert (visited_addresses (analyze_start self0).1 = list_to_set initial) as Hs.
      { simpl. rewrite Hv, Hi. apply union_empty_l_L. }
      destruct ((analyze_start self0).2) as [|c cur'].
      - by rewrite Hs.
      - destruct (run_level_last 0 (c :: cur') (analyze_start self0).1)
          as (_ & -> & ->); [simpl; lia|].
        by rewrite Hs. }
    split; [|split; [done|split; [done|]]].
    + rewrite Hm. change (range (0 + 1)) with [0]. rewrite level_starts_single.
      constructor; [|constructor]. split; [done|].
      apply run_level_last. simpl. lia.
    + rewrite <- Hvis. apply analyze_edges_from_log.
Qed.

End Provenance.

(** C5 as stated fails in its last part: with [max_level = 0], the seed
    ["addr1"] and one transaction from ["addr1"] to ["addr2"], the graph has
    the edge from ["addr1"] to ["addr2"], and ["addr2"] is not a seed. *)
Lemma max_level_zero_edge_to_non_seed :
  let R := constant_runtime test_response in
  let self := @analyze_state R (@init R ["addr1"] 0 None None) in
  has_edge (graph self) "addr1" "addr2" = true ∧
  "addr2" ∉ initial_addresses self.
Proof.
  intros R self. split; [vm_compute; reflexivity|].
  vm_compute. intros Hin. discriminate Hin.
Qed.

(** C5 at a concrete run with [max_level = 0]. *)
Lemma last_level_does_not_propagate_witness :
  let R := constant_runtime test_response in
  let self0 := @init R ["addr1"] 0 None None in
  let self := @analyze_state R self0 in
  let st := ((@analyze_start R self0).1, (∅ : gset string)) in
  let tx := simple_tx "tx1" None ["addr1"] ["addr2"] in
  visited_addresses self = list_to_set ["addr1"] ∧
  address_constraints self = address_constraints self0 ∧
  edges (graph (@process_tx R (max_level st.1) ["addr1"] ["addr1"] st tx).1)
    !! ("addr1", "addr2") = Some (tx_attr tx).
Proof.
  intros R self0 self st tx.
  destruct (@last_level_does_not_propagate R) as (_ & Hedge & Hrun).
  destruct (Hrun ["addr1"] None None) as (_ & Hv & Hc & _).
  split; [exact Hv|]. split; [exact Hc|].
  assert (Hrel : @tx_is_relevant R st.1 ["addr1"] tx = true) by (vm_compute; reflexivity).
  assert (Hs : "addr1" ∈ tx_senders tx) by (vm_compute; reflexivity).
  assert (Hr : "addr2" ∈ tx_receivers tx) by (vm_compute; reflexivity).
  assert (Hne : "addr1" ≠ "addr2") by discriminate.
  exact (Hedge ["addr1"] ["addr1"] st tx "addr1" "addr2" Hrel Hs Hr Hne).
Defined.

(** ** Propagation of windows *)

Section Propagation.
Context {R : Runtime}.

Lemma append_windows_add k1 k2 w o :
  append_windows k2 w (append_windows k1 w o) = append_windows (k1 + k2) w o.
Proof.
  destruct k1 as [|k1]; [done|]. destruct k2 as [|k2].
  - by rewrite Nat.add_0_r.
  - change (append_windows (S k1 + S k2) w o)
      with (Some (default [] o ++ replicate (S k1 + S k2) w)).
    rewrite replicate_add, app_assoc. done.
Qed.

Lemma adds_refl a w st : adds a w 0 st st.
Proof. split; [done|]. split; [by left|intros [?|?]; [done|lia]]. Qed.

Lemma adds_trans a w k1 k2 st1 st2 st3 :
  adds a w k1 st1 st2 → adds a w k2 st2 st3 → adds a w (k1 + k2) st1 st3.
Proof.
  intros [Hc1 Hn1] [Hc2 Hn2]. split.
  - by rewrite Hc2, Hc1, append_windows_add.
  - rewrite Hn2, Hn1. split; [intros [[?|?]|?]|intros [?|?]]; auto; try (right; lia).
    destruct (decide (0 < k1)%nat); [left; by right|right; lia].
Qed.

Lemma propagate_adds cur w st b a :
  a ∉ visited_addresses st.1 → a ∉ cur →
  adds a w (if decide (b = a) then 1 else 0) st (propagate cur w.1 w.2 st b).
Proof.
  intros Hv Hc. unfold propagate, adds. destruct w as [mn mx]. cbn [fst snd].
  case_bool_decide as Hnew.
  - case_decide as Hb; cbn [fst snd].
    + subst b. rewrite add_constraint_lookup_eq. split; [done|].
      rewrite elem_of_union, elem_of_singleton. split; [intros _; right; lia|by left].
    + rewrite add_constraint_lookup_ne by done. split; [done|].
      rewrite elem_of_union, elem_of_singleton.
      split; [intros [?|?]; [congruence|by left]|intros [?|?]; [by right|lia]].
  - case_decide as Hb; [subst b; tauto|]. split; [done|].
    split; [by left|intros [?|?]; [done|lia]].
Qed.

Lemma visit_pair_adds level cur tx s st r a :
  level < max_level st.1 → a ∉ visited_addresses st.1 → a ∉ cur →
  adds a (tx_time tx - one_week, tx_time tx + one_week)
       (if decide (s ≠ r ∧ (a = s ∨ a = r)) then 1 else 0)
       st (visit_pair level cur tx s st r).
Proof.
  intros Hl Hv Hc. unfold visit_pair. case_bool_decide as Hne.
  - simpl. rewrite bool_decide_eq_true_2 by done.
    set (w := (tx_time tx - one_week, tx_time tx + one_week)).
    set (st0 := (set_graph st.1 (add_edge (graph st.1) s r (tx_attr tx)), st.2)).
    assert (adds a w 0 st st0) as H0 by exact (adds_refl a w st).
    pose proof (propagate_adds cur w st0 s a Hv Hc) as H1.
    pose proof (propagate_adds cur w (propagate cur w.1 w.2 st0 s) r a) as H2.
    assert (visited_addresses (propagate cur w.1 w.2 st0 s).1 = visited_addresses st.1)
      as Hv' by (unfold propagate; by case_bool_decide).
    rewrite Hv' in H2. specialize (H2 Hv Hc).
    pose proof (adds_trans _ _ _ _ _ _ _ (adds_trans _ _ _ _ _ _ _ H0 H1) H2) as H.
    replace (if decide (s ≠ r ∧ (a = s ∨ a = r)) then 1%nat else 0%nat)
      with (0 + (if decide (s = a) then 1 else 0) + (if decide (r = a) then 1 else 0))%nat;
      [exact H|].
    destruct (decide (s ≠ r ∧ (a = s ∨ a = r))) as [Hd|Hd],
             (decide (s = a)) as [Hs|Hs], (decide (r = a)) as [Hr|Hr];
      try reflexivity; exfalso; subst; intuition congruence.
  - rewrite decide_False by tauto. apply adds_refl.
Qed.

Lemma visit_receivers_adds level cur tx s rs st a :
  level < max_level st.1 → a ∉ visited_addresses st.1 → a ∉ cur →
  adds a (tx_time tx - one_week, tx_time tx + one_week) (pairs_with a s rs)
       st (foldl (visit_pair level cur tx s) st rs).
Proof.
  revert st. induction rs as [|r rs IH]; intros st Hl Hv Hc.
  - exact (adds_refl a _ st).
  - simpl.
    pose proof (visit_pair_adds level cur tx s st r a Hl Hv Hc) as H1.
    destruct (updates_frame _ _ _ _ (visit_pair_updates level cur tx s st r))
      as (_ & Hm & Hvis).
    specialize (IH (visit_pair level cur tx s st r)).
    rewrite Hm, Hvis in IH. specialize (IH Hl Hv Hc).
    pose proof (adds_trans _ _ _ _ _ _ _ H1 IH) as H.
    replace (pairs_with a s (r :: rs))
      with ((if decide (s ≠ r ∧ (a = s ∨ a = r)) then 1 else 0) + pairs_with a s rs)%nat;
      [exact H|].
    unfold pairs_with. rewrite filter_cons. by case_decide.
Qed.

Lemma visit_pairs_adds level cur tx ss rs st a :
  level < max_level st.1 → a ∉ visited_addresses st.1 → a ∉ cur →
  adds a (tx_time tx - one_week, tx_time tx + one_week) (pair_count a ss rs)
       st (visit_pairs level cur tx ss rs st).
Proof.
  unfold visit_pairs. revert st. induction ss as [|s ss IH]; intros st Hl Hv Hc.
  - exact (adds_refl a _ st).
  - simpl.
    pose proof (visit_receivers_adds level cur tx s rs st a Hl Hv Hc) as H1.
    assert (rtc (update level cur) st (foldl (visit_pair level cur tx s) st rs)) as Hrtc.
    { apply foldl_rtc. intros; apply visit_pair_updates. }
    destruct (updates_frame _ _ _ _ Hrtc) as (_ & Hm & Hvis).
    specialize (IH (foldl (visit_pair level cur tx s) st rs)).
    rewrite Hm, Hvis in IH. specialize (IH Hl Hv Hc).
    exact (adds_trans _ _ _ _ _ _ _ H1 IH).
Qed.

End Propagation.

Section PairCount.
Context {R : Runtime}.

Lemma filter_eq_length (a : string) (l : list string) :
  NoDup l → length (filter (λ r, r = a) l) = if decide (a ∈ l) then 1%nat else 0%nat.
Proof.
  induction 1 as [|x l Hx Hnd IH]; [done|].
  rewrite filter_cons. destruct (decide (x = a)) as [->|Hne].
  - rewrite decide_True by left. simpl. rewrite IH, decide_False; done.
  - rewrite IH. destruct (decide (a ∈ l)) as [Hin|Hin].
    + rewrite decide_True; [done|by right].
    + rewrite decide_False; [done|]. rewrite not_elem_of_cons. split; [congruence|done].
Qed.

Lemma pairs_with_self a rs :
  pairs_with a a rs = length (filter (λ r, r ≠ a) rs).
Proof.
  unfold pairs_with. f_equal. apply list_filter_iff. intros r.
  split; [intros [? _]; congruence|intros ?; split; [congruence|by left]].
Qed.

Lemma pairs_with_other a s rs :
  s ≠ a → NoDup rs →
  pairs_with a s rs = if decide (a ∈ rs) then 1%nat else 0%nat.
Proof.
  intros Hne Hnd. rewrite <- filter_eq_length by done.
  unfold pairs_with. f_equal. apply list_filter_iff. intros r. split.
  - intros [_ [?|?]]; congruence.
  - intros ->. split; [done|by right].
Qed.

Lemma pair_count_lists a ss rs :
  NoDup ss → NoDup rs →
  pair_count a ss rs =
  ((if decide (a ∈ ss) then length (filter (λ r, r ≠ a) rs) else 0) +
   (if decide (a ∈ rs) then length (filter (λ s, s ≠ a) ss) else 0))%nat.
Proof.
  intros Hss Hrs. induction Hss as [|s ss Hs Hnd IH].
  - simpl. by destruct (decide (a ∈ rs)).
  - unfold pair_count in *. simpl. rewrite IH. rewrite filter_cons.
    destruct (decide (s = a)) as [->|Hne].
    + rewrite pairs_with_self.
      destruct (decide (a ∈ a :: ss)) as [_|Hn]; [|exfalso; apply Hn; left].
      destruct (decide (a ∈ ss)) as [Hin|_]; [done|].
      destruct (decide (a ≠ a)) as [Hn|_]; [done|].
      destruct (decide (a ∈ rs)); lia.
    + rewrite pairs_with_other by done.
      destruct (decide (s ≠ a)) as [_|Hn]; [|done].
      destruct (decide (a ∈ s :: ss)) as [Hc1|Hc1], (decide (a ∈ ss)) as [Hc2|Hc2].
      * destruct (decide (a ∈ rs)); simpl; lia.
      * exfalso. apply elem_of_cons in Hc1 as [?|?]; [congruence|done].
      * exfalso. apply Hc1. by right.
      * destruct (decide (a ∈ rs)); simpl; lia.
Qed.

Lemma filter_set_order_length (a : string) (X : gset string) :
  length (filter (λ r, r ≠ a) (set_order X)) = size (X ∖ {[a]}).
Proof.
  unfold size, set_size. simpl. apply Permutation_length. apply NoDup_Permutation.
  - apply NoDup_filter, set_order_NoDup.
  - apply NoDup_elements.
  - intros x. rewrite list_elem_of_filter, set_order_elem_of, elem_of_elements,
      elem_of_difference, elem_of_singleton. tauto.
Qed.

Lemma pair_count_set_order a (S1 S2 : gset string) :
  pair_count a (set_order S1) (set_order S2) = pair_count_sets a S1 S2.
Proof.
  rewrite pair_count_lists by apply set_order_NoDup.
  unfold pair_count_sets. rewrite !filter_set_order_length.
  destruct (decide (a ∈ set_order S1)) as [H1|H1], (decide (a ∈ S1)) as [H1'|H1'];
    rewrite set_order_elem_of in H1; try done;
  destruct (decide (a ∈ set_order S2)) as [H2|H2], (decide (a ∈ S2)) as [H2'|H2'];
    rewrite set_order_elem_of in H2; done.
Qed.

(** C4, as amended.  Let a relevant transaction with time [t] be processed
    at a level below [max_level], and let [a] be an address that is neither
    visited nor in the current frontier.  Let [k] count the pairs of a sender
    and a different receiver of the transaction in which [a] takes part:
    the receivers other than [a] if [a] is a sender, plus the senders other
    than [a] if [a] is a receiver.  If [a] takes part in such a pair
    ([k > 0]), it is added to the next frontier and the window
    [[t - 604800, t + 604800]] is appended to the windows [a] already has,
    which are all kept; the loop appends it once per pair, [k] times in all.
    If [k = 0] (no sender, no receiver, or [a] alone on both sides) the
    transaction does nothing for [a]. *)
Theorem propagation_windows level cur batch st tx a :
  level < max_level st.1 →
  tx_is_relevant st.1 batch tx = true →
  a ∉ visited_addresses st.1 → a ∉ cur →
  let st' := process_tx level cur batch st tx in
  let k := pair_count_sets a (tx_senders tx) (tx_receivers tx) in
  let old := address_constraints st.1 !! a in
  ((0 < k)%nat →
     a ∈ st'.2 ∧
     address_constraints st'.1 !! a
     = Some (default [] old ++ replicate k (tx_time tx - 604800, tx_time tx + 604800))) ∧
  (k = 0%nat →
     (a ∈ st'.2 ↔ a ∈ st.2) ∧ address_constraints st'.1 !! a = old).
Proof.
  intros Hl Hrel Hv Hc st' k old.
  assert (adds a (tx_time tx - one_week, tx_time tx + one_week) k st st') as [Hcon Hnext].
  { unfold st', process_tx. rewrite Hrel.
    unfold k. rewrite <- pair_count_set_order.
    set (st0 := (set_transactions st.1 (all_transactions st.1 ++ [tx]), st.2)).
    pose proof (visit_pairs_adds level cur tx (set_order (tx_senders tx))
                  (set_order (tx_receivers tx)) st0 a Hl Hv Hc) as H.
    exact H. }
  change one_week with 604800 in Hcon. fold old in Hcon. split.
  - intros Hk. split; [exact (proj2 Hnext (or_intror Hk))|].
    rewrite Hcon. destruct k; [lia|done].
  - intros Hk. rewrite Hk in Hcon, Hnext. split; [|done].
    rewrite Hnext. split; [intros [?|?]; [done|lia]|by left].
Qed.

End PairCount.

(** C4 as stated fails in two ways.  One relevant transaction with the
    senders ["a"] and ["b"] and the receiver ["x"] gives the new address
    ["x"] the same window twice, not once.  And a relevant transaction without
    senders and with the receivers ["a"] and ["y"] leaves the new participant
    ["y"] out of the next frontier and without a window. *)
Lemma propagation_not_one_window_per_tx :
  let R := constant_runtime RequestException in
  let st := ((@analyze_start R (@init R ["a"] 1 None None)).1, (∅ : gset string)) in
  let tx1 := simple_tx "tx1" (Some 1000000) ["a"; "b"] ["x"] in
  let tx2 := simple_tx "tx2" (Some 1000000) [] ["a"; "y"] in
  (@tx_is_relevant R st.1 ["a"] tx1 = true ∧
   address_constraints (@process_tx R 0 ["a"] ["a"] st tx1).1 !! "x"
   = Some [(395200, 1604800); (395200, 1604800)]) ∧
  (@tx_is_relevant R st.1 ["a"] tx2 = true ∧
   "y" ∈ tx_receivers tx2 ∧ ("y" ∉ visited_addresses st.1) ∧
   ("y" ∉ (@process_tx R 0 ["a"] ["a"] st tx2).2) ∧
   address_constraints (@process_tx R 0 ["a"] ["a"] st tx2).1 !! "y" = None).
Proof.
  intros R st tx1 tx2. split; [split; vm_compute; reflexivity|].
  split; [vm_compute; reflexivity|]. split; [vm_compute; reflexivity|].
  split; [vm_compute; intros Hin; discriminate Hin|].
  split; [vm_compute; intros Hin; discriminate Hin|].
  vm_compute; reflexivity.
Qed.

(** C4 at a concrete transaction: ["addr2"] is found through the one pair
    with ["addr1"] and gets one window. *)
Lemma propagation_windows_witness :
  let R := constant_runtime RequestException in
  let st := ((@analyze_start R (@init R ["addr1"] 1 None None)).1, (∅ : gset string)) in
  let tx := simple_tx "tx1" (Some 1000000) ["addr1"] ["addr2"] in
  let st' := @process_tx R 0 ["addr1"] ["addr1"] st tx in
  "addr2" ∈ st'.2 ∧
  address_constraints st'.1 !! "addr2"
  = Some (default [] (address_constraints st.1 !! "addr2") ++
          replicate (pair_count_sets "addr2" (tx_senders tx) (tx_receivers tx))
                    (tx_time tx - 604800, tx_time tx + 604800)).
Proof.
  intros R st tx st'.
  assert (Hl : 0 < max_level st.1) by (vm_compute; reflexivity).
  assert (Hrel : @tx_is_relevant R st.1 ["addr1"] tx = true) by (vm_compute; reflexivity).
  assert (Hv : "addr2" ∉ visited_addresses st.1)
    by (vm_compute; intros Hin; discriminate Hin).
  assert (Hc : "addr2" ∉ ["addr1"]).
  { intros Hin. apply list_elem_of_singleton in Hin. discriminate Hin. }
  destruct (@propagation_windows R 0 ["addr1"] ["addr1"] st tx "addr2" Hl Hrel Hv Hc)
    as [Hpos _].
  apply Hpos. vm_compute. lia.
Defined.

(** ** Reachability *)

Section Reachability.
Implicit Types (E : gset (string * string)) (S V : gset string).

Lemma elem_of_successors_in E S v :
  v ∈ successors_in E S ↔ ∃ u, u ∈ S ∧ (u, v) ∈ E.
Proof.
  unfold successors_in. rewrite elem_of_map. split.
  - intros ([u v'] & -> & [Hu He]%elem_of_filter). by exists u.
  - intros (u & Hu & He). exists (u, v). split; [done|]. by apply elem_of_filter.
Qed.

Lemma elem_of_expand E S v :
  v ∈ expand E S ↔ v ∈ S ∨ ∃ u, u ∈ S ∧ (u, v) ∈ E.
Proof. unfold expand. by rewrite elem_of_union, elem_of_successors_in. Qed.

Lemma reach_from_S E n S : reach_from E (Datatypes.S n) S = expand E (reach_from E n S).
Proof. done. Qed.

Lemma reach_from_mono E n S : reach_from E n S ⊆ reach_from E (Datatypes.S n) S.
Proof. rewrite reach_from_S. intros v Hv. apply elem_of_expand. by left. Qed.

Lemma reach_from_start E n S : S ⊆ reach_from E n S.
Proof.
  induction n as [|n IH]; [done|]. etrans; [exact IH|apply reach_from_mono].
Qed.

(** Everything the search finds is reachable from a start node. *)
Lemma reach_from_sound E n S v :
  v ∈ reach_from E n S → ∃ s, s ∈ S ∧ rtc (step_in E) s v.
Proof.
  revert v. induction n as [|n IH]; intros v.
  - intros Hv. by exists v.
  - rewrite reach_from_S, elem_of_expand. intros [Hv|(u & Hu & He)]; [by apply IH|].
    destruct (IH u Hu) as (s & Hs & Hsu). exists s. split; [done|].
    eapply rtc_r; [exact Hsu|exact He].
Qed.

(** The search stays inside any set that holds the start nodes and the
    targets of all edges. *)
Lemma reach_from_bounded E n S V :
  S ⊆ V → (∀ u v, (u, v) ∈ E → v ∈ V) → reach_from E n S ⊆ V.
Proof.
  intros HS HE. induction n as [|n IH]; [done|].
  rewrite reach_from_S. intros v [Hv|(u & _ & He)]%elem_of_expand; [by apply IH|].
  by apply (HE u v).
Qed.

(** Each round either finds a new node or the set is closed already. *)
Lemma reach_from_progress E n S :
  expand E (reach_from E n S) ⊆ reach_from E n S ∨
  (size S + n ≤ size (reach_from E n S))%nat.
Proof.
  induction n as [|n IH].
  - right. simpl. lia.
  - destruct IH as [Hclosed|Hsize].
    + left. rewrite reach_from_S.
      assert (expand E (reach_from E n S) = reach_from E n S) as ->; [|done].
      apply set_eq. intros v. split; [apply Hclosed|].
      intros Hv. apply elem_of_expand. by left.
    + destruct (decide (expand E (reach_from E n S) ⊆ reach_from E n S)) as [Hc|Hnc].
      * left. rewrite reach_from_S.
        assert (expand E (reach_from E n S) = reach_from E n S) as ->; [|done].
        apply set_eq. intros v. split; [apply Hc|].
        intros Hv. apply elem_of_expand. by left.
      * right.
        assert (reach_from E n S ⊂ reach_from E (Datatypes.S n) S) as Hlt.
        { split; [apply reach_from_mono|]. by rewrite reach_from_S. }
        apply subset_size in Hlt. lia.
Qed.

(** With as many rounds as there are nodes the set is closed, so it holds
    everything reachable from the start node. *)
Lemma reach_from_complete E V s v :
  s ∈ V → (∀ u v, (u, v) ∈ E → v ∈ V) →
  rtc (step_in E) s v → v ∈ reach_from E (size V) {[s]}.
Proof.
  intros Hs HE Hrtc.
  assert (expand E (reach_from E (size V) {[s]}) ⊆ reach_from E (size V) {[s]})
    as Hclosed.
  { destruct (reach_from_progress E (size V) {[s]}) as [Hc|Hsize]; [done|].
    exfalso. rewrite size_singleton in Hsize.
    assert (reach_from E (size V) {[s]} ⊆ V) as Hb.
    { apply reach_from_bounded; [|done]. by apply singleton_subseteq_l. }
    apply subseteq_size in Hb. lia. }
  revert v Hrtc. apply (rtc_ind_r (λ v, v ∈ reach_from E (size V) {[s]})).
  - apply reach_from_start. by apply elem_of_singleton.
  - intros y z _ Hyz IH. apply Hclosed, elem_of_expand. right. by exists y.
Qed.

Lemma step_in_edge_set G u v : step_in (edge_set G) u v ↔ edge_rel G u v.
Proof. unfold step_in, edge_set, edge_rel. apply elem_of_dom. Qed.

Lemma step_in_reversed G u v : step_in (reversed_edge_set G) u v ↔ edge_rel G v u.
Proof.
  unfold step_in, reversed_edge_set. rewrite elem_of_map. split.
  - intros ([a b] & [= -> ->] & He). by apply step_in_edge_set.
  - intros He. exists (v, u). split; [done|]. by apply step_in_edge_set.
Qed.

Lemma rtc_edge_set G u v : rtc (step_in (edge_set G)) u v ↔ reaches G u v.
Proof.
  split; intros Hrtc; induction Hrtc as [|x y z Hxy _ IH]; try done;
    (eapply rtc_l; [|exact IH]); by apply step_in_edge_set.
Qed.

Lemma rtc_reversed G u v : rtc (step_in (reversed_edge_set G)) u v ↔ reaches G v u.
Proof.
  split.
  - intros Hrtc. induction Hrtc as [|x y z Hxy _ IH]; [done|].
    eapply rtc_r; [exact IH|]. by apply step_in_reversed.
  - intros Hrtc. induction Hrtc as [|x y z Hxy _ IH]; [done|].
    eapply rtc_r; [exact IH|]. by apply step_in_reversed.
Qed.

(** In a well-formed graph reachability does not leave the node set. *)
Lemma reaches_nodes_r G u v : graph_wf G → reaches G u v → u ∈ nodes G → v ∈ nodes G.
Proof.
  intros Hwf Hrtc. induction Hrtc as [|x y z Hxy _ IH]; [done|].
  intros _. apply IH. by destruct (Hwf x y Hxy).
Qed.

Lemma reaches_nodes_l G u v : graph_wf G → reaches G u v → v ∈ nodes G → u ∈ nodes G.
Proof.
  intros Hwf Hrtc. induction Hrtc as [|x y z Hxy _ IH]; [done|].
  intros _. by destruct (Hwf x y Hxy).
Qed.

(** [nx.descendants] and [nx.ancestors] of a node of a well-formed graph. *)
Lemma nx_descendants_spec G source :
  graph_wf G → source ∈ nodes G →
  ∃ d, nx_descendants G source = Ok d ∧
       ∀ x, x ∈ d ↔ x ≠ source ∧ reaches G source x.
Proof.
  intros Hwf Hs. unfold nx_descendants. rewrite bool_decide_eq_true_2 by done.
  eexists. split; [done|]. intros x.
  rewrite elem_of_difference, elem_of_singleton. split.
  - intros [Hx Hne]. split; [done|].
    destruct (reach_from_sound _ _ _ _ Hx) as (s & ->%elem_of_singleton & Hrtc).
    by apply rtc_edge_set.
  - intros [Hne Hrtc]. split; [|done].
    apply reach_from_complete; [done| |by apply rtc_edge_set].
    intros u v Huv%step_in_edge_set. by destruct (Hwf u v Huv).
Qed.

Lemma nx_ancestors_spec G source :
  graph_wf G → source ∈ nodes G →
  ∃ a, nx_ancestors G source = Ok a ∧
       ∀ x, x ∈ a ↔ x ≠ source ∧ reaches G x source.
Proof.
  intros Hwf Hs. unfold nx_ancestors. rewrite bool_decide_eq_true_2 by done.
  eexists. split; [done|]. intros x.
  rewrite elem_of_difference, elem_of_singleton. split.
  - intros [Hx Hne]. split; [done|].
    destruct (reach_from_sound _ _ _ _ Hx) as (s & ->%elem_of_singleton & Hrtc).
    by apply rtc_reversed.
  - intros [Hne Hrtc]. split; [|done].
    apply reach_from_complete; [done| |by apply rtc_reversed].
    intros u v Huv%step_in_reversed. by destruct (Hwf v u Huv).
Qed.

End Reachability.

(** ** The pruning filter *)

Section PruningProperties.
Context {R : Runtime}.

(** The list of seeds the filter works with enumerates the present seeds. *)
Lemma initial_list_present self a :
  a ∈ filter (λ addr, addr ∈ nodes (graph self)) (set_order (initial_addresses self))
  ↔ a ∈ present_seeds self.
Proof.
  unfold present_seeds.
  rewrite list_elem_of_filter, set_order_elem_of, elem_of_filter. tauto.
Qed.

Lemma initial_list_length self :
  length (filter (λ addr, addr ∈ nodes (graph self)) (set_order (initial_addresses self)))
  = size (present_seeds self).
Proof.
  unfold size, set_size. simpl. apply Permutation_length, NoDup_Permutation.
  - apply NoDup_filter, set_order_NoDup.
  - apply NoDup_elements.
  - intros a. rewrite initial_list_present. by rewrite elem_of_elements.
Qed.

(** [G.subgraph] on a list that enumerates a set of nodes of [G] is the
    subgraph induced by the set. *)
Lemma nx_subgraph_induced G (l : list string) (K : gset string) :
  (∀ a, a ∈ l ↔ a ∈ K) → K ⊆ nodes G →
  nx_subgraph G l = induced_subgraph G K.
Proof.
  intros Hl HK. unfold nx_subgraph, induced_subgraph.
  assert (filter (λ n, n ∈ l) (nodes G) = nodes G ∩ K) as ->.
  { apply set_eq. intros a. rewrite elem_of_filter, elem_of_intersection, Hl. tauto. }
  f_equal. apply map_filter_ext. intros [u v] x _. simpl.
  rewrite !elem_of_intersection. split; [tauto|].
  intros [Hu Hv]. split; (split; [by apply HK|done]).
Qed.

(** The two sets the loop over the present seeds builds. *)
Lemma collect_reach_spec G (l : list string) (D A : gset string) :
  graph_wf G → (∀ a, a ∈ l → a ∈ nodes G) →
  let da := foldl (collect_reach G) (D, A) l in
  (∀ x, x ∈ da.1 ↔ x ∈ D ∨ ∃ s, s ∈ l ∧ reaches G s x) ∧
  (∀ x, x ∈ da.2 ↔ x ∈ A ∨ ∃ s, s ∈ l ∧ reaches G x s).
Proof.
  intros Hwf. revert D A. induction l as [|node l IH]; intros D A Hl; simpl.
  - split; intros x; (split; [by left|]);
      intros [?|(s & Hs & _)]; try done; by apply elem_of_nil in Hs.
  - assert (node ∈ nodes G) as Hnode by (apply Hl; left).
    destruct (nx_descendants_spec G node Hwf Hnode) as (d & Hd & Hdspec).
    destruct (nx_ancestors_spec G node Hwf Hnode) as (a & Ha & Haspec).
    unfold collect_reach at 2 4. rewrite Hd, Ha. simpl.
    destruct (IH ({[node]} ∪ (D ∪ d)) ({[node]} ∪ (A ∪ a))) as [IHd IHa].
    { intros b Hb. apply Hl. by right. }
    split; intros x.
    + rewrite IHd, !elem_of_union, elem_of_singleton, Hdspec. split.
      * intros [[->|[?|[_ Hr]]]|(s & Hs & Hr)].
        -- right. exists node. split; [left|done].
        -- by left.
        -- right. exists node. split; [left|done].
        -- right. exists s. split; [by right|done].
      * intros [?|(s & Hs & Hr)]; [left; right; by left|].
        apply elem_of_cons in Hs as [->|Hs]; [|right; by exists s].
        left. destruct (decide (x = node)) as [->|Hne]; [by left|].
        right. right. done.
    + rewrite IHa, !elem_of_union, elem_of_singleton, Haspec. split.
      * intros [[->|[?|[_ Hr]]]|(s & Hs & Hr)].
        -- right. exists node. split; [left|done].
        -- by left.
        -- right. exists node. split; [left|done].
        -- right. exists s. split; [by right|done].
      * intros [?|(s & Hs & Hr)]; [left; right; by left|].
        apply elem_of_cons in Hs as [->|Hs]; [|right; by exists s].
        left. destruct (decide (x = node)) as [->|Hne]; [by left|].
        right. right. done.
Qed.

Lemma present_seeds_nodes self a : a ∈ present_seeds self → a ∈ nodes (graph self).
Proof. unfold present_seeds. by intros [? ?]%elem_of_filter. Qed.

(** Fewer than two present seeds: the filter stops early. *)
Lemma filter_relevant_graph_few_seeds self :
  (size (present_seeds self) < 2)%nat →
  filter_relevant_graph self = induced_subgraph (graph self) (present_seeds self).
Proof.
  intros Hlt. unfold filter_relevant_graph. cbv zeta.
  rewrite initial_list_length, bool_decide_eq_true_2 by done.
  apply nx_subgraph_induced.
  - intros a. apply initial_list_present.
  - intros a. apply present_seeds_nodes.
Qed.

(** Two present seeds or more: the intersection of the two reachability
    sets. *)
Lemma filter_relevant_graph_two_seeds self :
  graph_wf (graph self) → (2 ≤ size (present_seeds self))%nat →
  ∃ D A : gset string,
    (∀ x, x ∈ D ↔ ∃ s, s ∈ present_seeds self ∧ reaches (graph self) s x) ∧
    (∀ x, x ∈ A ↔ ∃ s, s ∈ present_seeds self ∧ reaches (graph self) x s) ∧
    filter_relevant_graph self = induced_subgraph (graph self) (D ∩ A).
Proof.
  intros Hwf Hge. unfold filter_relevant_graph. cbv zeta.
  rewrite initial_list_length, bool_decide_eq_false_2 by lia.
  set (G := graph self).
  set (l := filter (λ addr, addr ∈ nodes G) (set_order (initial_addresses self))).
  destruct (collect_reach_spec G l ∅ ∅ Hwf) as [HD HA].
  { intros a Ha%initial_list_present. by apply present_seeds_nodes. }
  exists (foldl (collect_reach G) (∅, ∅) l).1, (foldl (collect_reach G) (∅, ∅) l).2.
  split; [|split].
  - intros x. rewrite HD. split.
    + intros [Hx|(s & Hs & Hr)]; [by apply not_elem_of_empty in Hx|].
      exists s. split; [by apply initial_list_present|done].
    + intros (s & Hs & Hr). right. exists s.
      split; [by apply initial_list_present|done].
  - intros x. rewrite HA. split.
    + intros [Hx|(s & Hs & Hr)]; [by apply not_elem_of_empty in Hx|].
      exists s. split; [by apply initial_list_present|done].
    + intros (s & Hs & Hr). right. exists s.
      split; [by apply initial_list_present|done].
  - apply nx_subgraph_induced.
    + intros a. apply set_order_elem_of.
    + intros a [Ha _]%elem_of_intersection. apply HD in Ha as [Ha|(s & Hs & Hr)];
        [by apply not_elem_of_empty in Ha|].
      apply (reaches_nodes_r G s a Hwf Hr).
      by apply present_seeds_nodes, initial_list_present.
Qed.

(** C1.  On a well-formed graph [filter_relevant_graph] returns the subgraph
    induced by the present seeds when fewer than two seeds are nodes of the
    graph, and otherwise the subgraph induced by [D ∩ A], where [D] holds
    exactly the nodes reachable from some present seed and [A] exactly the
    nodes from which some present seed is reachable (a seed reaches itself). *)
Theorem filter_relevant_graph_spec (self : BitcoinAnalyzer) :
  graph_wf (graph self) →
  let G := graph self in
  let present := present_seeds self in
  ((size present < 2)%nat →
     filter_relevant_graph self = induced_subgraph G present) ∧
  ((2 ≤ size present)%nat →
     ∃ D A : gset string,
       (∀ x, x ∈ D ↔ ∃ s, s ∈ present ∧ reaches G s x) ∧
       (∀ x, x ∈ A ↔ ∃ s, s ∈ present ∧ reaches G x s) ∧
       filter_relevant_graph self = induced_subgraph G (D ∩ A)).
Proof.
  intros Hwf G present. split.
  - apply filter_relevant_graph_few_seeds.
  - by apply filter_relevant_graph_two_seeds.
Qed.

End PruningProperties.

(** C1 at the chain graph: both seeds are present, so the result is the
    subgraph induced by [D ∩ A]. *)
Lemma filter_relevant_graph_spec_witness :
  let R := constant_runtime RequestException in
  let self := chain_analyzer "A" "B" "X" "Y" in
  ∃ D A : gset string,
    (∀ x, x ∈ D ↔ ∃ s, s ∈ present_seeds self ∧ reaches (graph self) s x) ∧
    (∀ x, x ∈ A ↔ ∃ s, s ∈ present_seeds self ∧ reaches (graph self) x s) ∧
    @filter_relevant_graph R self = induced_subgraph (graph self) (D ∩ A).
Proof.
  intros R self.
  assert (Hwf : graph_wf (graph self)).
  { do 3 apply add_edge_wf. apply add_nodes_from_wf, empty_graph_wf. }
  assert (Hsize : (2 ≤ size (present_seeds self))%nat) by (vm_compute; lia).
  destruct (@filter_relevant_graph_spec R self Hwf) as [_ Hge].
  exact (Hge Hsize).
Defined.

(** ** Paths between seeds *)

Section Paths.
Context {R : Runtime}.

Lemma path_of_reaches G u v :
  reaches G u v → v ∈ nodes G →
  ∃ p, is_path G (u :: p) ∧ last (u :: p) = Some v.
Proof.
  intros Hrtc Hv. induction Hrtc as [x|x y z Hxy _ IH].
  - by exists [].
  - destruct (IH Hv) as (p & Hp & Hlast). exists (y :: p). split; [by split|].
    by rewrite last_cons_cons.
Qed.

Lemma path_app G u p1 x p2 :
  is_path G (u :: p1) → last (u :: p1) = Some x → is_path G (x :: p2) →
  is_path G (u :: p1 ++ p2) ∧ last (u :: p1 ++ p2) = last (x :: p2).
Proof.
  revert u. induction p1 as [|y p1 IH]; intros u Hw Hlast Hw2.
  - simpl in Hlast. by simplify_eq.
  - destruct Hw as [Huy Hw]. rewrite last_cons_cons in Hlast.
    destruct (IH y Hw Hlast Hw2) as [Hw' Hl']. split; [by split|].
    by rewrite <- Hl'.
Qed.

Lemma reaches_of_path G u p x v :
  is_path G (u :: p) → x ∈ u :: p → last (u :: p) = Some v →
  reaches G u x ∧ reaches G x v.
Proof.
  revert u x. induction p as [|y p IH]; intros u x Hw Hx Hlast.
  - apply list_elem_of_singleton in Hx as ->. simpl in Hlast. simplify_eq. done.
  - destruct Hw as [Huy Hw]. rewrite last_cons_cons in Hlast.
    apply elem_of_cons in Hx as [->|Hx].
    + split; [done|]. eapply rtc_l; [exact Huy|].
      apply (IH y y Hw); [left|done].
    + destruct (IH y x Hw Hx Hlast) as [Hyx Hxv]. split; [|done].
      by eapply rtc_l.
Qed.

(** Lying on a path between present seeds, in terms of reachability. *)
Lemma on_seed_path_reaches self x :
  graph_wf (graph self) →
  on_seed_path self x ↔
  (∃ s1, s1 ∈ present_seeds self ∧ reaches (graph self) s1 x) ∧
  (∃ s2, s2 ∈ present_seeds self ∧ reaches (graph self) x s2).
Proof.
  intros Hwf. split.
  - intros (p & s1 & s2 & Hw & Hhead & Hlast & Hs1 & Hs2 & Hx).
    destruct p as [|u p]; [done|]. simpl in Hhead. simplify_eq.
    destruct (reaches_of_path _ _ _ _ _ Hw Hx Hlast) as [Hr1 Hr2].
    split; [exists s1|exists s2]; by split.
  - intros [(s1 & Hs1 & Hr1) (s2 & Hs2 & Hr2)].
    pose proof (present_seeds_nodes _ _ Hs1) as Hn1.
    pose proof (present_seeds_nodes _ _ Hs2) as Hn2.
    pose proof (reaches_nodes_r _ _ _ Hwf Hr1 Hn1) as Hnx.
    destruct (path_of_reaches _ _ _ Hr1 Hnx) as (p1 & Hw1 & Hl1).
    destruct (path_of_reaches _ _ _ Hr2 Hn2) as (p2 & Hw2 & Hl2).
    destruct (path_app _ _ _ _ _ Hw1 Hl1 Hw2) as [Hw Hl].
    exists (s1 :: p1 ++ p2), s1, s2. split; [done|]. split; [done|].
    split; [by rewrite Hl|]. split; [done|]. split; [done|].
    rewrite app_comm_cons. apply elem_of_app. left.
    apply last_Some in Hl1 as [l' Hl']. rewrite Hl'.
    apply elem_of_app. right. left.
Qed.

(** The nodes the filter keeps when two seeds or more are present. *)
Lemma kept_nodes self x :
  graph_wf (graph self) → (2 ≤ size (present_seeds self))%nat →
  x ∈ nodes (filter_relevant_graph self) ↔
  (∃ s1, s1 ∈ present_seeds self ∧ reaches (graph self) s1 x) ∧
  (∃ s2, s2 ∈ present_seeds self ∧ reaches (graph self) x s2).
Proof.
  intros Hwf Hge.
  destruct (filter_relevant_graph_two_seeds self Hwf Hge) as (D & A & HD & HA & ->).
  simpl.
  rewrite !elem_of_intersection, HD, HA. split; [tauto|].
  intros [(s1 & Hs1 & Hr1) H2]. split; [|by split; [exists s1|]].
  apply (reaches_nodes_r _ s1 x Hwf Hr1). by apply present_seeds_nodes.
Qed.

End Paths.

(** ** The pruning example *)

Section Chain.
Context {R : Runtime}.

Lemma chain_graph_wf A B X Y : graph_wf (chain_graph A B X Y).
Proof. do 3 apply add_edge_wf. apply add_nodes_from_wf, empty_graph_wf. Qed.

Lemma chain_graph_edge A B X Y u v :
  edge_rel (chain_graph A B X Y) u v ↔
  (u, v) = (A, X) ∨ (u, v) = (X, B) ∨ (u, v) = (X, Y).
Proof.
  unfold edge_rel, chain_graph, add_edge. simpl.
  rewrite !lookup_insert_is_Some, lookup_empty. split.
  - intros [Heq|[_ [Heq|[_ [Heq|[_ [? Hemp]]]]]]]; [auto..|done].
  - intros [Heq|[Heq|Heq]].
    + destruct (decide ((X, Y) = (u, v))); [by left|right; split; [done|]].
      destruct (decide ((X, B) = (u, v))); [by left|right; split; [done|]].
      by left.
    + destruct (decide ((X, Y) = (u, v))); [by left|right; split; [done|]].
      by left.
    + by left.
Qed.

Lemma chain_graph_nodes A B X Y x :
  x ∈ nodes (chain_graph A B X Y) ↔ x = A ∨ x = B ∨ x = X ∨ x = Y.
Proof.
  unfold chain_graph, add_edge, add_nodes_from, empty_graph. simpl.
  rewrite !elem_of_union, !elem_of_singleton, elem_of_empty. tauto.
Qed.

(** C2.  On a well-formed graph in which two seeds or more are present, the
    filter keeps a node exactly when it lies on a directed path from a
    present seed to a present seed ([on_seed_path]: the path may pass a node
    more than once, a seed alone is a path of length zero, and the two ends
    may be the same seed).  Hence the nodes of a chain
    [A → X → B] between present seeds are kept, a node from which no present
    seed is reachable is not, and on the graph that consists of the seeds [A]
    and [B], the chain [A → X → B] and the dead end [X → Y] exactly [A],
    [X] and [B] are kept. *)
Theorem pruning_keeps_seed_paths (self : BitcoinAnalyzer) :
  graph_wf (graph self) → (2 ≤ size (present_seeds self))%nat →
  let G := graph self in
  let present := present_seeds self in
  let kept := nodes (filter_relevant_graph self) in
  (∀ x, x ∈ kept ↔ on_seed_path self x) ∧
  (∀ A B X, A ∈ present → B ∈ present → edge_rel G A X → edge_rel G X B →
            A ∈ kept ∧ X ∈ kept ∧ B ∈ kept) ∧
  (∀ Y, (∀ s, s ∈ present → ¬ reaches G Y s) → Y ∉ kept) ∧
  (∀ A B X Y, G = chain_graph A B X Y → initial_addresses self = {[A; B]} →
              X ≠ A → X ≠ B → Y ≠ A → Y ≠ B → Y ≠ X →
              kept = {[A; X; B]} ∧ (Y ∉ kept) ∧ edge_rel G X Y).
Proof.
  intros Hwf Hge G present kept.
  assert (Hkept : ∀ x, x ∈ kept ↔
            (∃ s1, s1 ∈ present ∧ reaches G s1 x) ∧
            (∃ s2, s2 ∈ present ∧ reaches G x s2)).
  { intros x. by apply kept_nodes. }
  assert (Hchain : ∀ A B X, A ∈ present → B ∈ present → edge_rel G A X →
            edge_rel G X B → A ∈ kept ∧ X ∈ kept ∧ B ∈ kept).
  { intros A B X HA HB HAX HXB. repeat split; apply Hkept.
    - split; [by exists A|]. exists B. split; [done|].
      eapply rtc_l; [exact HAX|]. by apply rtc_once.
    - split; [exists A; split; [done|by apply rtc_once]|].
      exists B. split; [done|by apply rtc_once].
    - split; [|by exists B]. exists A. split; [done|].
      eapply rtc_l; [exact HAX|]. by apply rtc_once. }
  assert (Hdead : ∀ Y, (∀ s, s ∈ present → ¬ reaches G Y s) → Y ∉ kept).
  { intros Y HY [_ (s & Hs & Hr)]%Hkept. by apply (HY s). }
  split; [|split; [done|split; [done|]]].
  - intros x. rewrite Hkept. symmetry. by apply on_seed_path_reaches.
  - intros A B X Y HG Hinit HXA HXB HYA HYB HYX.
    assert (HpA : A ∈ present).
    { apply elem_of_filter. fold G. rewrite HG, Hinit, chain_graph_nodes.
      split; [by left|]. apply elem_of_union_l. by apply elem_of_singleton. }
    assert (HpB : B ∈ present).
    { apply elem_of_filter. fold G. rewrite HG, Hinit, chain_graph_nodes.
      split; [right; by left|]. apply elem_of_union_r. by apply elem_of_singleton. }
    assert (HAX : edge_rel G A X) by (rewrite HG; apply chain_graph_edge; by left).
    assert (HXB' : edge_rel G X B) by (rewrite HG; apply chain_graph_edge; right; by left).
    assert (HXY : edge_rel G X Y) by (rewrite HG; apply chain_graph_edge; right; by right).
    assert (HYout : Y ∉ kept).
    { apply Hdead. intros s Hs Hr.
      apply elem_of_filter in Hs as [_ Hs]. rewrite Hinit in Hs.
      apply rtc_inv in Hr as [->|(z & Hyz & _)].
      - apply elem_of_union in Hs as [Hs|Hs]; apply elem_of_singleton in Hs; congruence.
      - rewrite HG in Hyz. apply chain_graph_edge in Hyz as [?|[?|?]]; congruence. }
    split; [|done].
    apply set_eq. intros x. rewrite !elem_of_union, !elem_of_singleton. split.
    + intros Hx. destruct (decide (x = Y)) as [->|HxY]; [done|].
      assert (x ∈ nodes G) as Hn.
      { apply Hkept in Hx as [(s1 & Hs1 & Hr1) _].
        apply (reaches_nodes_r G s1 x Hwf Hr1). by apply present_seeds_nodes. }
      rewrite HG in Hn. apply chain_graph_nodes in Hn. tauto.
    + destruct (Hchain A B X HpA HpB HAX HXB') as (? & ? & ?).
      intros [[->| ->]| ->]; done.
Qed.

End Chain.

(** C2 at the chain graph with the seeds ["A"] and ["B"]. *)
Lemma pruning_keeps_seed_paths_witness :
  let R := constant_runtime RequestException in
  let self := chain_analyzer "A" "B" "X" "Y" in
  nodes (@filter_relevant_graph R self) = {["A"; "X"; "B"]} ∧
  ("Y" ∉ nodes (@filter_relevant_graph R self)) ∧
  edge_rel (graph self) "X" "Y".
Proof.
  intros R self.
  assert (Hwf : graph_wf (graph self)) by apply chain_graph_wf.
  assert (Hsize : (2 ≤ size (present_seeds self))%nat) by (vm_compute; lia).
  destruct (@pruning_keeps_seed_paths R self Hwf Hsize) as (_ & _ & _ & Hex).
  apply (Hex "A" "B" "X" "Y"); [reflexivity|reflexivity|discriminate..].
Defined.

(** * Further properties of the code *)

(** ** The constraint store and the constructor *)

Section ConstraintStore.
Context {R : Runtime}.

(** X1.  [add_constraint] only adds: afterwards an address is relevant at a
    time exactly when it was relevant before or it is the address given and
    the time lies in the new window; the windows of all other addresses are
    the same lists as before, and every other field of the object is
    untouched. *)
Theorem add_constraint_relevance (self : BitcoinAnalyzer) (a : string) (mn mx : Z) :
  let self' := add_constraint self a mn mx in
  (∀ b t, is_tx_relevant self' b t = true ↔
          is_tx_relevant self b t = true ∨ (b = a ∧ mn ≤ t ∧ t ≤ mx)) ∧
  (∀ b, b ≠ a → address_constraints self' !! b = address_constraints self !! b) ∧
  graph self' = graph self ∧ visited_addresses self' = visited_addresses self ∧
  all_transactions self' = all_transactions self.
Proof.
  intros self'. split; [|split; [|done]].
  - intros b t. rewrite !is_tx_relevant_true. destruct (decide (b = a)) as [->|Hne].
    + unfold self'. rewrite add_constraint_lookup_eq. split.
      * intros (ws & mn' & mx' & Heq & Hin & Hb). injection Heq as <-.
        apply elem_of_app in Hin as [Hin | Hw%list_elem_of_singleton];
          [|injection Hw as -> ->; by right].
        left. destruct (address_constraints self !! a) as [ws|] eqn:Hc;
          [|by apply elem_of_nil in Hin].
        by exists ws, mn', mx'.
      * intros [(ws & mn' & mx' & Hc & Hin & Hb)|(_ & Hb)].
        -- eexists _, mn', mx'. split; [done|]. rewrite Hc. simpl.
           split; [|done]. apply elem_of_app. by left.
        -- eexists _, mn, mx. split; [done|]. split; [|done].
           apply elem_of_app. right. by apply list_elem_of_singleton.
    + unfold self'. rewrite add_constraint_lookup_ne by done. split; [by left|].
      intros [?|(? & _)]; done.
  - intros b Hne. by apply add_constraint_lookup_ne.
Qed.

(** X2.  Relevance reads the windows of an address as a set: two objects in
    which the address has window lists with the same members, in whatever
    order and however often repeated, give the same answer at every time. *)
Theorem is_tx_relevant_windows_as_set (self self' : BitcoinAnalyzer) (a : string)
    (ws ws' : list (Z * Z)) :
  address_constraints self !! a = Some ws →
  address_constraints self' !! a = Some ws' →
  (∀ w, w ∈ ws ↔ w ∈ ws') →
  ∀ t, is_tx_relevant self a t = is_tx_relevant self' a t.
Proof.
  intros Hc Hc' Hsame t. apply eq_true_iff_eq. rewrite !is_tx_relevant_true.
  rewrite Hc, Hc'. split.
  - intros (? & mn & mx & Heq & Hin & Hb). injection Heq as <-. exists ws', mn, mx.
    split; [done|]. split; [by apply Hsame|done].
  - intros (? & mn & mx & Heq & Hin & Hb). injection Heq as <-. exists ws, mn, mx.
    split; [done|]. split; [by apply Hsame|done].
Qed.

(** X3.  The constructor gives every address of the seed list exactly one
    window, the caller's range (0 and 99999999999 standing in for a missing
    bound), also when the address is listed more than once, and no window to
    any other address; the graph, the visited set and the log start empty. *)
Theorem init_state (initial : list string) (lvl : Z) (sd ed : option datetime) :
  let self := init initial lvl sd ed in
  let start_ts := match sd with Some d => timestamp d | None => 0 end in
  let end_ts := match ed with Some d => timestamp d | None => 99999999999 end in
  (∀ a, address_constraints self !! a =
        if decide (a ∈ initial) then Some [(start_ts, end_ts)] else None) ∧
  initial_addresses self = list_to_set initial ∧ max_level self = lvl ∧
  graph self = empty_graph ∧ visited_addresses self = ∅ ∧ all_transactions self = [].
Proof.
  intros self start_ts end_ts. split.
  - intros a. apply init_constraints.
  - destruct (init_fields initial lvl sd ed) as (? & ? & ? & ? & _).
    repeat split; try done. apply init_graph.
Qed.

End ConstraintStore.

(** X2 at two concrete objects: the same window once and twice. *)
Lemma is_tx_relevant_windows_as_set_witness :
  let self := add_constraint (MkAnalyzer ∅ 1 empty_graph ∅ [] ∅ 0) "x" 10 20 in
  let self' := add_constraint self "x" 10 20 in
  is_tx_relevant self "x" 15 = is_tx_relevant self' "x" 15.
Proof.
  intros self self'.
  apply (is_tx_relevant_windows_as_set self self' "x" [(10, 20)] [(10, 20); (10, 20)]);
    [reflexivity|reflexivity|].
  intros w. rewrite !elem_of_cons. tauto.
Defined.

(** ** Batches *)

Section Batches.

Lemma chunks_concat (n : nat) (l : list string) :
  (length l ≤ n * batch_size)%nat →
  concat ((λ k, take batch_size (drop (k * batch_size) l)) <$> seq 0 n) = l.
Proof.
  revert l. induction n as [|n IH]; intros l Hlen.
  - simpl in *. destruct l; [done|simpl in Hlen; lia].
  - simpl seq. rewrite <- fmap_S_seq, fmap_cons, <- list_fmap_compose. simpl concat.
    rewrite drop_0.
    rewrite (list_fmap_ext _ (λ k, take batch_size (drop (k * batch_size) (drop batch_size l)))
               (seq 0 n)).
    + rewrite IH; [apply take_drop|]. rewrite length_drop. lia.
    + intros i k _. simpl. rewrite drop_drop. done.
Qed.

Lemma batch_count_bounds (len : nat) :
  let n := ((len + (batch_size - 1)) / batch_size)%nat in
  (len ≤ n * batch_size)%nat ∧ (∀ k, (k < n)%nat → (k * batch_size < len)%nat).
Proof.
  intros n. unfold batch_size in *.
  pose proof (Nat.div_mod_eq (len + (20 - 1)) 20) as Hdm.
  pose proof (Nat.mod_upper_bound (len + (20 - 1)) 20 ltac:(lia)) as Hmod.
  fold n in Hdm. split; [lia|]. intros k Hk. nia.
Qed.

(** No batch is empty, and their number. *)
Lemma batches_count (l : list string) :
  Forall (λ b, b ≠ []) (batches l) ∧
  length (batches l) = ((length l + 19) / 20)%nat.
Proof.
  unfold batches. destruct (batch_count_bounds (length l)) as [_ Hlt]. split.
  - apply Forall_forall. intros b (k & -> & Hk)%list_elem_of_fmap Hnil.
    apply elem_of_seq in Hk. specialize (Hlt k ltac:(lia)).
    assert (0 < length (take batch_size (drop (k * batch_size) l)))%nat as Hpos.
    { rewrite length_take, length_drop. unfold batch_size in *. lia. }
    rewrite Hnil in Hpos. simpl in Hpos. lia.
  - by rewrite length_fmap, length_seq.
Qed.

(** X4.  The batches of a frontier are consecutive slices of it: put end to
    end they give back the frontier, no address lost, repeated or moved; no
    batch is empty and none has more than 20 addresses; there are
    ceil(len / 20) of them, so none for an empty frontier. *)
Theorem batches_partition (l : list string) :
  concat (batches l) = l ∧
  Forall (λ b, (0 < length b ≤ 20)%nat) (batches l) ∧
  length (batches l) = ((length l + 19) / 20)%nat.
Proof.
  unfold batches. destruct (batch_count_bounds (length l)) as [Hle Hlt].
  split; [by apply chunks_concat|]. split.
  - apply Forall_forall. intros b (k & -> & Hk)%list_elem_of_fmap.
    apply elem_of_seq in Hk. specialize (Hlt k ltac:(lia)).
    rewrite length_take, length_drop. unfold batch_size in *. lia.
  - by rewrite length_fmap, length_seq.
Qed.

End Batches.

(** ** Requests *)

Section Requests.
Context {R : Runtime}.

Lemma propagate_requests cur mn mx st a :
  requests_made (propagate cur mn mx st a).1 = requests_made st.1.
Proof. unfold propagate. by case_bool_decide. Qed.

Lemma visit_pair_requests level cur tx s st r :
  requests_made (visit_pair level cur tx s st r).1 = requests_made st.1.
Proof.
  unfold visit_pair. case_bool_decide; [|done].
  case_bool_decide; [|done]. by rewrite !propagate_requests.
Qed.

Lemma process_tx_requests level cur batch st tx :
  requests_made (process_tx level cur batch st tx).1 = requests_made st.1.
Proof.
  unfold process_tx. destruct (tx_is_relevant st.1 batch tx); [|done].
  unfold visit_pairs.
  rewrite (foldl_preserves (λ st, requests_made st.1)); [done|].
  intros st' s. rewrite (foldl_preserves (λ st, requests_made st.1)); [done|].
  intros st'' r. apply visit_pair_requests.
Qed.

Lemma process_batch_requests level cur st batch :
  batch ≠ [] →
  requests_made (process_batch level cur st batch).1 = S (requests_made st.1).
Proof.
  intros Hne. unfold process_batch.
  assert (requests_made (fetch_batch_transactions st.1 batch).2 = S (requests_made st.1))
    as Hf.
  { unfold fetch_batch_transactions. destruct batch; [done|]. by destruct (fetch_try _). }
  destruct (fetch_batch_transactions st.1 batch) as [txs self']. simpl in Hf.
  rewrite (foldl_preserves (λ st, requests_made st.1)); [done|].
  intros; apply process_tx_requests.
Qed.

Lemma process_batches_requests level cur st bs :
  Forall (λ b, b ≠ []) bs →
  requests_made (foldl (process_batch level cur) st bs).1
  = (requests_made st.1 + length bs)%nat.
Proof.
  intros Hall. revert st. induction Hall as [|b bs Hb _ IH]; intros st; simpl; [lia|].
  rewrite IH, process_batch_requests by done. lia.
Qed.

Lemma run_level_requests level cur self :
  requests_made (run_level level cur self).1
  = (requests_made self + (length cur + 19) / 20)%nat.
Proof.
  unfold run_level. simpl. destruct (batches_count cur) as (Hall & Hlen).
  by rewrite process_batches_requests, Hlen.
Qed.

Lemma level_loop_requests levels cur self :
  requests_made (level_loop levels cur self)
  = (requests_made self +
     sum_list_with (λ e : Z * list string * BitcoinAnalyzer, (length e.1.2 + 19) / 20)
                   (level_starts levels cur self))%nat.
Proof.
  revert cur self. induction levels as [|level rest IH]; intros cur self; [simpl; lia|].
  destruct cur as [|c cur']; [simpl; lia|].
  change (level_loop (level :: rest) (c :: cur') self)
    with (level_loop rest (run_level level (c :: cur') self).2
                          (run_level level (c :: cur') self).1).
  change (level_starts (level :: rest) (c :: cur') self)
    with ((level, c :: cur', self) ::
          level_starts rest (run_level level (c :: cur') self).2
                            (run_level level (c :: cur') self).1).
  rewrite IH, run_level_requests. cbn [sum_list_with fst snd].
  generalize ((length (c :: cur') + 19) / 20)%nat. intros q. lia.
Qed.

(** X5.  The analysis sends one request per batch and no other: the number
    of requests of a run is the sum, over the levels it enters, of
    ceil(frontier length / 20); a level with an empty frontier sends none. *)
Theorem analyze_request_count (self : BitcoinAnalyzer) :
  requests_made (analyze_state self)
  = (requests_made self +
     sum_list_with (λ e : Z * list string * BitcoinAnalyzer, (length e.1.2 + 19) / 20)
       (level_starts (range (max_level self + 1))
          (analyze_start self).2 (analyze_start self).1))%nat.
Proof. unfold analyze_state. by rewrite level_loop_requests. Qed.

End Requests.

(** ** Participants of a transaction *)

Section Participants.
Context {R : Runtime}.

Lemma truthy_Some addr a : truthy addr = Some a ↔ addr = Some a ∧ a ≠ "".
Proof.
  unfold truthy. destruct addr as [b|]; [|by split; [|intros [? _]]].
  case_decide as Hb.
  - split; [done|]. intros [[= ->] ?]. done.
  - split; [intros [= ->]; by split|intros [[= ->] _]; done].
Qed.

Lemma senders_fold (inputs : list input_t) (acc : gset string) a :
  a ∈ foldl (λ senders inp,
               match in_prev_out inp with
               | Some prev_out =>
                   match truthy (po_addr prev_out) with
                   | Some addr => {[addr]} ∪ senders
                   | None => senders
                   end
               | None => senders
               end) acc inputs
  ↔ a ∈ acc ∨ ∃ inp po, inp ∈ inputs ∧ in_prev_out inp = Some po ∧
                        truthy (po_addr po) = Some a.
Proof.
  revert acc. induction inputs as [|inp inputs IH]; intros acc; simpl.
  - split; [by left|]. intros [?|(? & ? & Hin & _)]; [done|]. by apply elem_of_nil in Hin.
  - rewrite IH. split.
    + intros [Hacc|(inp' & po & Hin & Hpo & Ht)].
      * destruct (in_prev_out inp) as [po|] eqn:Hpo; [|by left].
        destruct (truthy (po_addr po)) as [addr|] eqn:Ht; [|by left].
        apply elem_of_union in Hacc as [->%elem_of_singleton|?]; [|by left].
        right. exists inp, po. split; [left|done].
      * right. exists inp', po. split; [by right|done].
    + intros [Hacc|(inp' & po & Hin & Hpo & Ht)].
      * left. destruct (in_prev_out inp) as [po|]; [|done].
        destruct (truthy (po_addr po)); [|done]. by apply elem_of_union_r.
      * apply elem_of_cons in Hin as [->|Hin]; [|right; by exists inp', po].
        left. rewrite Hpo, Ht. apply elem_of_union_l. by apply elem_of_singleton.
Qed.

Lemma receivers_fold (out : list output_t) (acc : gset string) a :
  a ∈ foldl (λ receivers o,
               match truthy (out_addr o) with
               | Some addr => {[addr]} ∪ receivers
               | None => receivers
               end) acc out
  ↔ a ∈ acc ∨ ∃ o, o ∈ out ∧ truthy (out_addr o) = Some a.
Proof.
  revert acc. induction out as [|o out IH]; intros acc; simpl.
  - split; [by left|]. intros [?|(? & Hin & _)]; [done|]. by apply elem_of_nil in Hin.
  - rewrite IH. split.
    + intros [Hacc|(o' & Hin & Ht)].
      * destruct (truthy (out_addr o)) as [addr|] eqn:Ht; [|by left].
        apply elem_of_union in Hacc as [->%elem_of_singleton|?]; [|by left].
        right. exists o. split; [left|done].
      * right. exists o'. split; [by right|done].
    + intros [Hacc|(o' & Hin & Ht)].
      * left. destruct (truthy (out_addr o)); [|done]. by apply elem_of_union_r.
      * apply elem_of_cons in Hin as [->|Hin]; [|right; by exists o'].
        left. rewrite Ht. apply elem_of_union_l. by apply elem_of_singleton.
Qed.

Lemma elem_of_tx_senders tx a :
  a ∈ tx_senders tx ↔
  a ≠ "" ∧ ∃ inp po, inp ∈ default [] (tx_inputs_field tx) ∧
                     in_prev_out inp = Some po ∧ po_addr po = Some a.
Proof.
  unfold tx_senders. rewrite senders_fold. split.
  - intros [Hin|(inp & po & Hin & Hpo & [Ha Hne]%truthy_Some)];
      [by apply not_elem_of_empty in Hin|].
    split; [done|]. by exists inp, po.
  - intros (Hne & inp & po & Hin & Hpo & Ha). right. exists inp, po.
    split; [done|]. split; [done|]. by apply truthy_Some.
Qed.

Lemma elem_of_tx_receivers tx a :
  a ∈ tx_receivers tx ↔
  a ≠ "" ∧ ∃ o, o ∈ default [] (tx_out_field tx) ∧ out_addr o = Some a.
Proof.
  unfold tx_receivers. rewrite receivers_fold. split.
  - intros [Hin|(o & Hin & [Ha Hne]%truthy_Some)];
      [by apply not_elem_of_empty in Hin|].
    split; [done|]. by exists o.
  - intros (Hne & o & Hin & Ha). right. exists o. split; [done|]. by apply truthy_Some.
Qed.

(** X6.  The senders of a transaction are exactly the non-empty addresses
    found under [prev_out] of some input, the receivers exactly the non-empty
    addresses of some output.  An input without [prev_out], an entry without
    an address or with the empty address, and a missing [inputs] or [out]
    field contribute nobody; the empty string is never a participant. *)
Theorem tx_participants_resolved (tx : tx_t) :
  (∀ a, a ∈ tx_senders tx ↔
        a ≠ "" ∧ ∃ inp po, inp ∈ default [] (tx_inputs_field tx) ∧
                           in_prev_out inp = Some po ∧ po_addr po = Some a) ∧
  (∀ a, a ∈ tx_receivers tx ↔
        a ≠ "" ∧ ∃ o, o ∈ default [] (tx_out_field tx) ∧ out_addr o = Some a) ∧
  (tx_inputs_field tx = None → tx_senders tx = ∅) ∧
  (tx_out_field tx = None → tx_receivers tx = ∅).
Proof.
  split; [intros a; apply elem_of_tx_senders|].
  split; [intros a; apply elem_of_tx_receivers|].
  split; intros Hnone.
  - unfold tx_senders. by rewrite Hnone.
  - unfold tx_receivers. by rewrite Hnone.
Qed.

(** X7.  Processing a transaction changes something exactly when the
    transaction is relevant for the batch: it leaves the object and the next
    frontier as they were if and only if no participant is both a member of
    the batch and inside one of its own windows at the time of the
    transaction.  Addresses outside the batch never make a transaction
    count, whatever windows they have. *)
Theorem process_tx_unchanged_iff level cur batch (st : BitcoinAnalyzer * gset string) tx :
  process_tx level cur batch st tx = st ↔
  ¬ ∃ p, p ∈ tx_senders tx ∪ tx_receivers tx ∧ p ∈ batch ∧
         is_tx_relevant st.1 p (tx_time tx) = true.
Proof.
  rewrite <- tx_is_relevant_true. split.
  - intros Heq Hrel.
    pose proof (process_tx_log level cur batch st tx) as Hlog.
    rewrite Heq, Hrel in Hlog. apply (f_equal length) in Hlog.
    rewrite length_app in Hlog. simpl in Hlog. lia.
  - intros Hrel. unfold process_tx.
    by destruct (tx_is_relevant st.1 batch tx).
Qed.

End Participants.

(** ** Invariants of a whole analysis *)

Section Analysis.
Context {R : Runtime}.

Lemma level_loop_by_level (P : BitcoinAnalyzer → Prop) :
  (∀ level cur self, P self → P (run_level level cur self).1) →
  ∀ levels cur self, P self → P (level_loop levels cur self).
Proof.
  intros Hstep levels. induction levels as [|level rest IH]; intros cur self HP; [done|].
  destruct cur as [|c cur']; [done|].
  change (P (level_loop rest (run_level level (c :: cur') self).2
                             (run_level level (c :: cur') self).1)).
  by apply IH, Hstep.
Qed.

Lemma level_loop_by_frontier (P : list string → BitcoinAnalyzer → Prop) :
  (∀ level cur self, P cur self →
     P (run_level level cur self).2 (run_level level cur self).1) →
  ∀ levels cur self, P cur self → ∃ cur', P cur' (level_loop levels cur self).
Proof.
  intros Hstep levels. induction levels as [|level rest IH]; intros cur self HP;
    [by exists cur|].
  destruct cur as [|c cur']; [by exists []|].
  change (∃ cur'', P cur'' (level_loop rest (run_level level (c :: cur') self).2
                                            (run_level level (c :: cur') self).1)).
  by apply IH, Hstep.
Qed.

(** A property of the object and the next frontier that every transaction
    and every lookup preserves holds for what the batches of a level leave. *)
Lemma run_level_by_tx (P : BitcoinAnalyzer * gset string → Prop) level cur self :
  (∀ batch st tx, batch ⊆ cur → P st → P (process_tx level cur batch st tx)) →
  (∀ st batch, P st → P ((fetch_batch_transactions st.1 batch).2, st.2)) →
  P (self, ∅) → P (foldl (process_batch level cur) (self, ∅) (batches cur)).
Proof.
  intros Htx Hfetch. apply foldl_invariant_in. intros st batch Hb HP.
  unfold process_batch. specialize (Hfetch st batch HP).
  destruct (fetch_batch_transactions st.1 batch) as [txs self']. simpl in Hfetch.
  revert Hfetch. apply foldl_invariant_in. intros st' tx _.
  apply Htx. by apply batches_subseteq.
Qed.

Lemma is_tx_relevant_same self self' a t :
  address_constraints self' !! a = address_constraints self !! a →
  is_tx_relevant self' a t = is_tx_relevant self a t.
Proof. unfold is_tx_relevant. by intros ->. Qed.

(** *** Nodes *)

Lemma updates_nodes_accounted level cur st st' :
  rtc (update level cur) st st' → nodes_accounted st.1 → nodes_accounted st'.1.
Proof.
  intros Hrtc.
  apply (rtc_invariant (update level cur) (λ st, nodes_accounted st.1) st st'); [|done].
  intros x y Hxy Hx. destruct Hxy as [self next s r a Hne| | |]; simpl in *; try done.
  intros n Hn. unfold set_graph, add_edge in *. simpl in *.
  assert (∀ k, is_Some (edges (graph self) !! k) →
               is_Some (<[(s, r):=a]> (edges (graph self)) !! k)) as Hkeep.
  { intros k Hk. apply lookup_insert_is_Some. destruct (decide ((s, r) = k)); auto. }
  apply elem_of_union in Hn as [->%elem_of_singleton|Hn].
  { right. exists r. left. by rewrite lookup_insert_eq. }
  apply elem_of_union in Hn as [->%elem_of_singleton|Hn].
  { right. exists s. right. by rewrite lookup_insert_eq. }
  destruct (Hx n Hn) as [?|(m & [Hm|Hm])]; [by left|right; exists m..].
  - left. by apply Hkeep.
  - right. by apply Hkeep.
Qed.

Lemma propagate_next_in_graph cur mn mx st a :
  a ∈ nodes (graph st.1) → next_in_graph st → next_in_graph (propagate cur mn mx st a).
Proof.
  intros Ha Hst. unfold propagate. case_bool_decide; [|done].
  unfold next_in_graph in *. simpl. intros b Hb.
  apply elem_of_union in Hb as [Hb|Hb]; [apply Hst; by apply elem_of_union_l|].
  apply elem_of_union in Hb as [->%elem_of_singleton|Hb]; [done|].
  apply Hst. by apply elem_of_union_r.
Qed.

Lemma visit_pair_next_in_graph level cur tx s st r :
  next_in_graph st → next_in_graph (visit_pair level cur tx s st r).
Proof.
  intros Hst. unfold visit_pair. case_bool_decide; [|done].
  set (st0 := (set_graph st.1 (add_edge (graph st.1) s r (tx_attr tx)), st.2)).
  assert (next_in_graph st0) as H0.
  { unfold next_in_graph in *. simpl. intros b Hb.
    do 2 apply elem_of_union_r. by apply Hst. }
  assert (s ∈ nodes (graph st0.1)) as Hs
    by (simpl; apply elem_of_union_l; by apply elem_of_singleton).
  assert (r ∈ nodes (graph st0.1)) as Hr
    by (simpl; apply elem_of_union_r, elem_of_union_l; by apply elem_of_singleton).
  case_bool_decide; [|done].
  apply propagate_next_in_graph; [by rewrite propagate_graph|].
  by apply propagate_next_in_graph.
Qed.

Lemma process_tx_next_in_graph level cur batch st tx :
  next_in_graph st → next_in_graph (process_tx level cur batch st tx).
Proof.
  intros Hst. unfold process_tx. destruct (tx_is_relevant st.1 batch tx); [|done].
  unfold visit_pairs. apply foldl_invariant_in; [|done].
  intros st' s _ Hst'. revert Hst'. apply foldl_invariant_in.
  intros st'' r _. apply visit_pair_next_in_graph.
Qed.

Lemma run_level_visited_in_graph level cur self :
  visited_addresses self ⊆ nodes (graph self) →
  visited_addresses (run_level level cur self).1 ⊆ nodes (graph (run_level level cur self).1).
Proof.
  intros Hv.
  assert (next_in_graph (foldl (process_batch level cur) (self, ∅) (batches cur))) as H.
  { apply run_level_by_tx.
    - intros batch st tx _. apply process_tx_next_in_graph.
    - intros st batch Hst. unfold next_in_graph in *.
      destruct (fetch_fields st.1 batch) as (Hg & _ & Hvis & _). simpl.
      by rewrite Hg, Hvis.
    - unfold next_in_graph. simpl. by rewrite union_empty_r_L. }
  exact H.
Qed.

(** X8.  In the graph a freshly constructed analyzer returns, every seed is
    a node, also one without any transaction; every visited address is a
    node; and every node is a seed or an end of some edge. *)
Theorem analyze_nodes (initial : list string) (lvl : Z) (sd ed : option datetime) :
  let self := analyze_state (init initial lvl sd ed) in
  (∀ a, a ∈ initial → a ∈ nodes (graph self)) ∧
  visited_addresses self ⊆ nodes (graph self) ∧
  (∀ n, n ∈ nodes (graph self) →
        n ∈ initial ∨
        ∃ m, is_Some (edges (graph self) !! (n, m)) ∨
             is_Some (edges (graph self) !! (m, n))).
Proof.
  intros self. unfold self, analyze_state.
  destruct (init_fields initial lvl sd ed) as (Hi & Hm & Hv & _).
  pose proof (init_graph initial lvl sd ed) as Hg.
  split; [|split].
  - intros a Ha.
    apply (level_loop_invariant (λ s, a ∈ nodes (graph s))).
    + intros level cur st st' Hrtc. apply (updates_nodes _ _ _ _ Hrtc).
    + done.
    + simpl. rewrite Hi. apply elem_of_union_r. by apply elem_of_list_to_set.
  - apply (level_loop_by_level (λ s, visited_addresses s ⊆ nodes (graph s))).
    + intros level cur s. apply run_level_visited_in_graph.
    + simpl. rewrite Hv, Hg. simpl. intros b Hb. apply elem_of_union_r.
      by apply elem_of_union in Hb as [Hb|Hb]; [apply not_elem_of_empty in Hb|].
  - assert (nodes_accounted (level_loop (range (max_level (init initial lvl sd ed) + 1))
              (analyze_start (init initial lvl sd ed)).2
              (analyze_start (init initial lvl sd ed)).1)) as Hacc.
    { apply (level_loop_invariant nodes_accounted).
      - intros level cur st st'. apply updates_nodes_accounted.
      - done.
      - intros n Hn. left. simpl in *. rewrite Hg in Hn. simpl in Hn.
        by apply elem_of_union in Hn as [Hn|Hn]; [apply not_elem_of_empty in Hn|]. }
    intros n Hn. destruct (Hacc n Hn) as [Hseed|?]; [|by right].
    left. revert Hseed.
    assert (initial_addresses (level_loop (range (max_level (init initial lvl sd ed) + 1))
              (analyze_start (init initial lvl sd ed)).2
              (analyze_start (init initial lvl sd ed)).1) = list_to_set initial) as ->.
    { apply (level_loop_invariant (λ s, initial_addresses s = list_to_set initial)).
      - intros level cur st st' Hrtc. by destruct (updates_frame _ _ _ _ Hrtc) as (-> & _).
      - done.
      - done. }
    apply elem_of_list_to_set.
Qed.

End Analysis.

(** ** Edges, log and windows of a whole analysis *)

Section AnalysisLog.
Context {R : Runtime}.

Lemma process_tx_edges_carry_logged level cur batch st tx :
  edges_carry_logged st.1 → edges_carry_logged (process_tx level cur batch st tx).1.
Proof.
  intros Hinv s r a. rewrite process_tx_edges, process_tx_log.
  destruct (tx_is_relevant st.1 batch tx) eqn:Hrel.
  - case_decide as Hd.
    + intros Heq. injection Heq as <-. destruct Hd as (_ & Hs & Hr & Hne).
      exists tx. split; [|done]. apply elem_of_app. right. apply list_elem_of_here.
    + intros Hsr. destruct (Hinv s r a Hsr) as (tx' & ? & ?).
      exists tx'. split; [|done]. apply elem_of_app. by left.
  - rewrite decide_False by (intros (? & _); done). apply Hinv.
Qed.

Lemma run_level_edges_carry_logged level cur self :
  edges_carry_logged self → edges_carry_logged (run_level level cur self).1.
Proof.
  intros Hinv. unfold run_level. simpl.
  apply (run_level_by_tx (λ st, edges_carry_logged st.1)); [| |done].
  - intros batch st tx _. apply process_tx_edges_carry_logged.
  - intros st batch Hst s r a. simpl.
    destruct (fetch_fields st.1 batch) as (-> & -> & _). apply Hst.
Qed.

(** X9.  In the state a freshly constructed analyzer ends in, every edge
    carries the hash and the time of a transaction of the log, and that
    transaction has the tail of the edge among its senders and the head among
    its receivers: the graph never holds an edge, a hash or a time that no
    relevant transaction brought. *)
Theorem analyze_edges_carry_logged (initial : list string) (lvl : Z)
    (sd ed : option datetime) :
  let self := analyze_state (init initial lvl sd ed) in
  ∀ s r a, edges (graph self) !! (s, r) = Some a →
    ∃ tx, tx ∈ all_transactions self ∧
          attr_tx_hash a = tx_hash_field tx ∧ attr_time a = tx_time tx ∧
          s ∈ tx_senders tx ∧ r ∈ tx_receivers tx ∧ s ≠ r.
Proof.
  intros self.
  assert (edges_carry_logged self) as Hinv.
  { unfold self, analyze_state.
    apply (level_loop_by_level edges_carry_logged).
    - intros level cur s. apply run_level_edges_carry_logged.
    - intros s r a. simpl. rewrite init_graph. simpl. by rewrite lookup_empty. }
  intros s r a Hsr. destruct (Hinv s r a Hsr) as (tx & Hin & -> & Hrest).
  by exists tx.
Qed.

(** *** The log *)

Lemma process_tx_log_in_windows level cur batch st tx :
  batch ⊆ cur →
  log_in_windows_level cur st →
  log_in_windows_level cur (process_tx level cur batch st tx).
Proof.
  intros Hsub [Hcur Hlog].
  pose proof (process_tx_updates level cur batch st tx) as Hrtc.
  destruct (updates_frame _ _ _ _ Hrtc) as (_ & _ & Hv).
  assert (∀ p t, p ∈ visited_addresses st.1 →
            is_tx_relevant (process_tx level cur batch st tx).1 p t
            = is_tx_relevant st.1 p t) as Hsame.
  { intros p t Hp. apply is_tx_relevant_same.
    apply (updates_constraints_old _ _ _ _ _ Hrtc). by left. }
  split; [intros a Ha; rewrite Hv; by apply Hcur|].
  intros tx'. rewrite process_tx_log.
  destruct (tx_is_relevant st.1 batch tx) eqn:Hrel.
  - intros [Hin | ->%list_elem_of_singleton]%elem_of_app.
    + destruct (Hlog tx' Hin) as (p & Hp & Hpv & Hpr).
      exists p. rewrite Hv, Hsame; done.
    + apply tx_is_relevant_true in Hrel as (p & Hp & Hb & Hpr).
      assert (p ∈ visited_addresses st.1) as Hpv by (apply Hcur; by apply Hsub).
      exists p. rewrite Hv, Hsame; done.
  - intros Hin. destruct (Hlog tx' Hin) as (p & Hp & Hpv & Hpr).
    exists p. rewrite Hv, Hsame; done.
Qed.

Lemma run_level_log_in_windows level cur self :
  (∀ a, a ∈ cur → a ∈ visited_addresses self) → log_in_windows self →
  log_in_windows (run_level level cur self).1.
Proof.
  intros Hcur Hlog.
  assert (log_in_windows_level cur
            (foldl (process_batch level cur) (self, ∅) (batches cur))) as [_ H].
  { apply run_level_by_tx; [| |done].
    - intros batch st tx. apply process_tx_log_in_windows.
    - intros st batch [Hc Hl].
      destruct (fetch_fields st.1 batch) as (_ & Hlg & Hvis & Hcon & _).
      split; simpl.
      + intros a Ha. rewrite Hvis. by apply Hc.
      + intros tx. rewrite Hlg, Hvis. intros Hin.
        destruct (Hl tx Hin) as (p & ? & ? & Hpr). exists p.
        split; [done|]. split; [done|]. rewrite <- Hpr.
        apply is_tx_relevant_same. by rewrite Hcon. }
  unfold run_level. simpl. intros tx Hin. simpl in Hin.
  destruct (H tx Hin) as (p & ? & ? & Hpr). exists p. split; [done|].
  split; [by apply elem_of_union_l|]. done.
Qed.

(** X13.  In the state a freshly constructed analyzer ends in, every
    transaction of the log has a participant that the engine expanded and that
    has a window containing the time of the transaction: nothing enters the
    log on the strength of an address the engine did not analyze. *)
Theorem analyze_log_in_windows (initial : list string) (lvl : Z)
    (sd ed : option datetime) :
  let self := analyze_state (init initial lvl sd ed) in
  ∀ tx, tx ∈ all_transactions self →
    ∃ p ws mn mx,
      p ∈ tx_senders tx ∪ tx_receivers tx ∧ p ∈ visited_addresses self ∧
      address_constraints self !! p = Some ws ∧ (mn, mx) ∈ ws ∧
      mn ≤ tx_time tx ∧ tx_time tx ≤ mx.
Proof.
  intros self.
  assert (∃ cur : list string,
            (∀ a, a ∈ cur → a ∈ visited_addresses self) ∧ log_in_windows self)
    as (cur & _ & Hlog).
  { unfold self, analyze_state.
    apply (level_loop_by_frontier
             (λ cur s, (∀ a, a ∈ cur → a ∈ visited_addresses s) ∧ log_in_windows s)).
    - intros level cur s [Hcur Hl]. split; [|by apply run_level_log_in_windows].
      intros a Ha. destruct (run_level_visited level cur s) as [-> _].
      apply elem_of_union_r. by apply elem_of_list_to_set.
    - split.
      + simpl. intros a Ha%set_order_elem_of. by apply elem_of_union_r.
      + intros tx. simpl.
        destruct (init_fields initial lvl sd ed) as (_ & _ & _ & -> & _).
        intros Hin. by apply elem_of_nil in Hin. }
  intros tx Hin. destruct (Hlog tx Hin) as (p & Hp & Hv & Hrel).
  apply is_tx_relevant_true in Hrel as (ws & mn & mx & ? & ? & ? & ?).
  by exists p, ws, mn, mx.
Qed.

End AnalysisLog.

(** ** Windows and frontiers of a whole analysis *)

Section AnalysisWindows.
Context {R : Runtime}.

Lemma add_constraint_dom self a mn mx :
  dom (address_constraints (add_constraint self a mn mx))
  = {[a]} ∪ dom (address_constraints self).
Proof.
  apply set_eq. intros b. rewrite elem_of_union, elem_of_singleton, !elem_of_dom.
  destruct (decide (a = b)) as [->|Hne].
  - rewrite add_constraint_lookup_eq. split; [by left|by eexists].
  - rewrite add_constraint_lookup_ne by done. split; [by right|].
    intros [?|?]; [congruence|done].
Qed.

Lemma updates_windows level cur st st' :
  rtc (update level cur) st st' →
  dom (address_constraints st.1) = visited_addresses st.1 ∪ st.2 ∧
  (∀ a ws, address_constraints st.1 !! a = Some ws → ws ≠ []) →
  dom (address_constraints st'.1) = visited_addresses st'.1 ∪ st'.2 ∧
  (∀ a ws, address_constraints st'.1 !! a = Some ws → ws ≠ []).
Proof.
  intros Hrtc.
  apply (rtc_invariant (update level cur)
    (λ st, dom (address_constraints st.1) = visited_addresses st.1 ∪ st.2 ∧
           (∀ a ws, address_constraints st.1 !! a = Some ws → ws ≠ [])) st st');
    [|done].
  intros x y Hxy [Hdom Hne].
  destruct Hxy as [| self next a mn mx _ _ _ | |]; cbn [fst snd] in *; try done.
  split.
  - rewrite add_constraint_dom, Hdom. apply set_eq. intros b.
    rewrite !elem_of_union. tauto.
  - intros b ws. destruct (decide (a = b)) as [->|Hab].
    + rewrite add_constraint_lookup_eq. intros [= <-].
      by destruct (default [] (address_constraints self !! b)).
    + rewrite add_constraint_lookup_ne by done. apply Hne.
Qed.

Lemma run_level_windows level cur self :
  windows_match_visited self → windows_match_visited (run_level level cur self).1.
Proof.
  intros [Hdom Hne].
  destruct (run_level_updates level cur self) as ([self' next] & Hrtc & ->).
  destruct (updates_windows _ _ _ _ Hrtc) as [Hdom' Hne'].
  { simpl. split; [by rewrite union_empty_r_L|done]. }
  split; simpl in *; done.
Qed.

Lemma init_windows initial lvl sd ed :
  windows_match_visited (analyze_start (init initial lvl sd ed)).1.
Proof.
  destruct (init_fields initial lvl sd ed) as (Hi & _ & Hv & _).
  split; simpl.
  - rewrite Hv, Hi, union_empty_l_L. apply set_eq. intros a.
    rewrite elem_of_dom, init_constraints, elem_of_list_to_set.
    case_decide; split; try done; by intros [? ?].
  - intros a ws. rewrite init_constraints. case_decide; [|done].
    by intros [= <-].
Qed.

(** X10.  At the start of every level of the analysis of a freshly
    constructed analyzer every address of the frontier has at least one
    window: the relevance test never meets an address of the batch that has
    no list of windows or an empty one. *)
Theorem frontier_has_windows (initial : list string) (lvl : Z)
    (sd ed : option datetime) :
  let self0 := init initial lvl sd ed in
  Forall (λ e : Z * list string * BitcoinAnalyzer,
            ∀ a, a ∈ e.1.2 →
                 ∃ w ws, address_constraints e.2 !! a = Some (w :: ws))
         (level_starts (range (max_level self0 + 1))
            (analyze_start self0).2 (analyze_start self0).1).
Proof.
  intros self0.
  eapply Forall_impl.
  - apply (level_starts_invariant
             (λ cur s, (∀ a, a ∈ cur → a ∈ visited_addresses s) ∧
                       windows_match_visited s)).
    + intros level cur s [Hcur Hw]. split; [|by apply run_level_windows].
      intros a Ha. destruct (run_level_visited level cur s) as [-> _].
      apply elem_of_union_r. by apply elem_of_list_to_set.
    + split; [|apply init_windows].
      simpl. intros a Ha%set_order_elem_of. by apply elem_of_union_r.
  - intros [[level cur] s] [Hcur [Hdom Hne]] a Ha. simpl in *.
    assert (is_Some (address_constraints s !! a)) as [ws Hws].
    { apply elem_of_dom. rewrite Hdom. by apply Hcur. }
    destruct ws as [|w ws]; [by destruct (Hne a [] Hws)|]. by exists w, ws.
Qed.

(** X19.  When the analysis of a freshly constructed analyzer ends, the
    addresses that have windows are exactly the visited ones (the seeds and
    every address that was put into a frontier), and no address has an empty
    list of windows. *)
Theorem analyze_windows_match_visited (initial : list string) (lvl : Z)
    (sd ed : option datetime) :
  let self := analyze_state (init initial lvl sd ed) in
  (∀ a, a ∈ visited_addresses self ↔
        ∃ w ws, address_constraints self !! a = Some (w :: ws)) ∧
  (∀ a, a ∉ visited_addresses self → address_constraints self !! a = None).
Proof.
  intros self.
  assert (windows_match_visited self) as [Hdom Hne].
  { unfold self, analyze_state. apply (level_loop_by_level windows_match_visited).
    - intros level cur s. apply run_level_windows.
    - apply init_windows. }
  split.
  - intros a. rewrite <- Hdom, elem_of_dom. split.
    + intros [ws Hws]. destruct ws as [|w ws]; [by destruct (Hne a [] Hws)|].
      by exists w, ws.
    + intros (w & ws & Hws). by eexists.
  - intros a Ha. rewrite <- Hdom in Ha. by apply not_elem_of_dom.
Qed.

(** *** No address is expanded twice *)

Lemma level_starts_frontiers levels cur self :
  NoDup cur → (∀ a, a ∈ cur → a ∈ visited_addresses self) →
  NoDup (concat ((λ e : Z * list string * BitcoinAnalyzer, e.1.2)
                   <$> level_starts levels cur self)) ∧
  (∀ a, a ∈ concat ((λ e : Z * list string * BitcoinAnalyzer, e.1.2)
                      <$> level_starts levels cur self) →
        a ∈ cur ∨ a ∉ visited_addresses self).
Proof.
  revert cur self. induction levels as [|level rest IH]; intros cur self Hnd Hcur.
  - split; [constructor|]. intros a Ha. by apply elem_of_nil in Ha.
  - destruct cur as [|c cur'].
    + split; [constructor|]. intros a Ha. by apply elem_of_nil in Ha.
    + change (level_starts (level :: rest) (c :: cur') self)
        with ((level, c :: cur', self) ::
              level_starts rest (run_level level (c :: cur') self).2
                                (run_level level (c :: cur') self).1).
      rewrite fmap_cons. cbn [concat fst snd].
      destruct (run_level_visited level (c :: cur') self) as [Hv Hnew].
      destruct (IH (run_level level (c :: cur') self).2
                   (run_level level (c :: cur') self).1) as [IHnd IHin].
      { unfold run_level. simpl. apply set_order_NoDup. }
      { intros a Ha. rewrite Hv. apply elem_of_union_r. by apply elem_of_list_to_set. }
      assert (∀ a, a ∈ concat ((λ e : Z * list string * BitcoinAnalyzer, e.1.2)
                     <$> level_starts rest (run_level level (c :: cur') self).2
                           (run_level level (c :: cur') self).1) →
                   a ∉ visited_addresses self) as Hlater.
      { intros a Ha. destruct (IHin a Ha) as [Hin|Hnv].
        - by destruct (Hnew a Hin).
        - intros Hav. apply Hnv. rewrite Hv. by apply elem_of_union_l. }
      split.
      * apply NoDup_app. split; [done|]. split; [|done].
        intros a Ha Ha'. apply (Hlater a Ha'). by apply Hcur.
      * intros a [Ha|Ha]%elem_of_app; [by left|right; by apply Hlater].
Qed.

(** X11.  An address is expanded at most once: the frontiers of all the
    levels of a run, put end to end, hold no address twice, neither inside
    one frontier nor in two frontiers of different levels. *)
Theorem frontiers_never_repeat (self : BitcoinAnalyzer) :
  NoDup (concat ((λ e : Z * list string * BitcoinAnalyzer, e.1.2)
                   <$> level_starts (range (max_level self + 1))
                         (analyze_start self).2 (analyze_start self).1)).
Proof.
  apply level_starts_frontiers.
  - simpl. apply set_order_NoDup.
  - simpl. intros a Ha%set_order_elem_of. by apply elem_of_union_r.
Qed.

(** *** Runs that never look anything up *)

Lemma level_loop_no_frontier levels self : level_loop levels [] self = self.
Proof. by destruct levels. Qed.

(** X12.  With a negative [max_level], or with an empty seed list, the
    analysis sends no request and logs nothing: the graph it returns has the
    seeds as its nodes and no edge, and the windows are those the
    constructor recorded. *)
Theorem analyze_without_levels (initial : list string) (lvl : Z)
    (sd ed : option datetime) :
  lvl < 0 ∨ initial = [] →
  let self0 := init initial lvl sd ed in
  let self := analyze_state self0 in
  requests_made self = 0%nat ∧ all_transactions self = [] ∧
  nodes (graph self) = list_to_set initial ∧ edges (graph self) = ∅ ∧
  address_constraints self = address_constraints self0.
Proof.
  intros Hcase self0 self.
  destruct (init_fields initial lvl sd ed) as (Hi & Hm & Hv & Hl & Hr).
  pose proof (init_graph initial lvl sd ed) as Hg.
  assert (self = (analyze_start self0).1) as ->.
  { unfold self, analyze_state. destruct Hcase as [Hneg| ->].
    - fold self0 in Hm. rewrite Hm. unfold range.
      replace (Z.to_nat (lvl + 1)) with 0%nat by lia. done.
    - assert ((analyze_start self0).2 = []) as ->; [|apply level_loop_no_frontier].
      simpl. fold self0 in Hi. rewrite Hi. simpl. apply set_order_empty. }
  fold self0 in Hi, Hv, Hl, Hr, Hg. simpl. rewrite Hg, Hi. simpl.
  repeat split; try done. apply union_empty_l_L.
Qed.

End AnalysisWindows.

(** X12 at a concrete run with [max_level = -1]. *)
Lemma analyze_without_levels_witness :
  let R := constant_runtime test_response in
  let self := @analyze_state R (@init R ["addr1"] (-1) None None) in
  requests_made self = 0%nat ∧ all_transactions self = [] ∧
  nodes (graph self) = list_to_set ["addr1"] ∧ edges (graph self) = ∅ ∧
  address_constraints self = address_constraints (@init R ["addr1"] (-1) None None).
Proof.
  intros R self.
  assert (Hcase : -1 < 0 ∨ ["addr1"] = []) by (left; lia).
  exact (@analyze_without_levels R ["addr1"] (-1) None None Hcase).
Defined.

(** ** More on the pruning filter *)

Section PruningMore.
Context {R : Runtime}.

Lemma nx_subgraph_sub G (l : list string) :
  nodes (nx_subgraph G l) ⊆ nodes G ∧
  (∀ k a, edges (nx_subgraph G l) !! k = Some a → edges G !! k = Some a) ∧
  graph_wf (nx_subgraph G l) ∧
  (∀ n, n ∈ l → n ∈ nodes G → n ∈ nodes (nx_subgraph G l)).
Proof.
  unfold nx_subgraph. simpl. split; [|split; [|split]].
  - intros n [_ Hn]%elem_of_filter. done.
  - intros k a [Hk _]%map_lookup_filter_Some. done.
  - intros u v [a [_ [Hu Hv]]%map_lookup_filter_Some]. simpl in *. done.
  - intros n Hl Hn. by apply elem_of_filter.
Qed.

Lemma collect_reach_mono G (l : list string) (D A : gset string) :
  D ⊆ (foldl (collect_reach G) (D, A) l).1 ∧ A ⊆ (foldl (collect_reach G) (D, A) l).2.
Proof.
  revert D A. induction l as [|node l IH]; intros D A; simpl; [done|].
  destruct (IH (collect_reach G (D, A) node).1 (collect_reach G (D, A) node).2)
    as [IHd IHa].
  rewrite <- surjective_pairing in IHd, IHa.
  split; (etrans; [|eassumption]); unfold collect_reach; simpl.
  - destruct (nx_descendants G node); [|done].
    intros x Hx. apply elem_of_union_r. by apply elem_of_union_l.
  - destruct (nx_ancestors G node); [|done].
    intros x Hx. apply elem_of_union_r. by apply elem_of_union_l.
Qed.

Lemma collect_reach_includes G (l : list string) (D A : gset string) node :
  node ∈ l → node ∈ nodes G →
  node ∈ (foldl (collect_reach G) (D, A) l).1 ∧
  node ∈ (foldl (collect_reach G) (D, A) l).2.
Proof.
  intros Hl Hn. revert D A. induction l as [|n l IH]; intros D A;
    [by apply elem_of_nil in Hl|].
  apply elem_of_cons in Hl as [<-|Hl]; [|by apply IH].
  simpl.
  destruct (collect_reach_mono G l (collect_reach G (D, A) node).1
              (collect_reach G (D, A) node).2) as [Hd Ha].
  rewrite <- surjective_pairing in Hd, Ha.
  split; [apply Hd|apply Ha]; unfold collect_reach, nx_descendants, nx_ancestors;
    rewrite !bool_decide_eq_true_2 by done; simpl;
    apply elem_of_union_l; by apply elem_of_singleton.
Qed.

(** The filter returns every seed that is a node of the graph. *)
Lemma filter_keeps_present_seeds (self : BitcoinAnalyzer) :
  present_seeds self ⊆ nodes (filter_relevant_graph self).
Proof.
  unfold filter_relevant_graph. cbv zeta.
  set (G := graph self).
  set (l := filter (λ addr, addr ∈ nodes G) (set_order (initial_addresses self))).
  intros a Ha. pose proof (present_seeds_nodes _ _ Ha) as Hnode.
  case_bool_decide.
  - apply nx_subgraph_sub; [|done]. by apply initial_list_present.
  - apply nx_subgraph_sub; [|done]. apply set_order_elem_of, elem_of_intersection.
    apply collect_reach_includes; [|done]. by apply initial_list_present.
Qed.

(** X14.  Whatever the graph, the filter returns a part of it: every node it
    returns is a node of the graph, every edge it returns is an edge of the
    graph with the same hash and time, both ends of every returned edge are
    returned nodes, and every seed that is a node of the graph is returned. *)
Theorem filter_returns_subgraph (self : BitcoinAnalyzer) :
  let G := graph self in
  let F := filter_relevant_graph self in
  nodes F ⊆ nodes G ∧
  (∀ k a, edges F !! k = Some a → edges G !! k = Some a) ∧
  graph_wf F ∧
  present_seeds self ⊆ nodes F.
Proof.
  intros G F.
  assert (∃ l, F = nx_subgraph G l) as [l Heq].
  { unfold F, filter_relevant_graph. cbv zeta. fold G. case_bool_decide; by eexists. }
  destruct (nx_subgraph_sub G l) as (Hn & He & Hwf & _).
  rewrite <- Heq in Hn, He, Hwf.
  do 3 (split; [done|]). apply filter_keeps_present_seeds.
Qed.

(** *** The filter applied twice *)

Lemma induced_edge G K u v :
  edge_rel (induced_subgraph G K) u v ↔ edge_rel G u v ∧ u ∈ K ∧ v ∈ K.
Proof.
  unfold edge_rel, induced_subgraph, is_Some. simpl. split.
  - intros [a [Ha [Hu Hv]]%map_lookup_filter_Some]. split; [by exists a|done].
  - intros ([a Ha] & Hu & Hv). exists a. by apply map_lookup_filter_Some.
Qed.

Lemma induced_wf G K : graph_wf G → graph_wf (induced_subgraph G K).
Proof.
  intros Hwf u v Huv. apply (induced_edge G K u v) in Huv as (Huv & Hu & Hv).
  destruct (Hwf u v Huv). simpl. by split; apply elem_of_intersection.
Qed.

Lemma induced_induced G (K K' : gset string) :
  K' ⊆ K → induced_subgraph (induced_subgraph G K) K' = induced_subgraph G K'.
Proof.
  intros Hsub. unfold induced_subgraph. simpl. f_equal.
  - apply set_eq. intros x. rewrite !elem_of_intersection. split; [tauto|].
    intros [? ?]. repeat split; try done. by apply Hsub.
  - apply map_filter_filter_l. intros [u v] a _ [Hu Hv]. simpl in *.
    split; by apply Hsub.
Qed.

Lemma induced_reaches_sub G K u v :
  reaches (induced_subgraph G K) u v → reaches G u v.
Proof.
  intros Hrtc. induction Hrtc as [|x y z Hxy _ IH]; [done|].
  eapply rtc_l; [|exact IH]. by apply (induced_edge G K x y) in Hxy as [? _].
Qed.

(** A path between two nodes that lie between seeds stays between seeds. *)
Lemma between_reaches self (K : gset string) u v :
  (∀ x, x ∈ K ↔ between_seeds self x) →
  reaches (graph self) u v → u ∈ K → v ∈ K →
  reaches (induced_subgraph (graph self) K) u v.
Proof.
  intros HK Hrtc. induction Hrtc as [|x y z Hxy Hyz IH]; [done|].
  intros Hx Hz.
  assert (y ∈ K) as Hy.
  { apply HK. apply HK in Hx as [(s1 & Hs1 & Hr1) _].
    apply HK in Hz as [_ (s2 & Hs2 & Hr2)]. split.
    - exists s1. split; [done|]. eapply rtc_r; [exact Hr1|exact Hxy].
    - exists s2. split; [done|]. etrans; [exact Hyz|exact Hr2]. }
  eapply rtc_l; [|by apply IH]. by apply induced_edge.
Qed.

Lemma present_seeds_filtered self (K : gset string) :
  present_seeds self ⊆ K →
  present_seeds (set_graph self (induced_subgraph (graph self) K)) = present_seeds self.
Proof.
  intros Hsub. unfold present_seeds. simpl. apply set_eq. intros a.
  rewrite !elem_of_filter, elem_of_intersection. split; [tauto|].
  intros [Hn Hi]. repeat split; try done. apply Hsub. by apply elem_of_filter.
Qed.

(** X15.  Filtering is idempotent on a well-formed graph: putting the
    filtered graph in the place of the graph and filtering again returns the
    same filtered graph. *)
Theorem filter_idempotent (self : BitcoinAnalyzer) :
  graph_wf (graph self) →
  filter_relevant_graph (set_graph self (filter_relevant_graph self))
  = filter_relevant_graph self.
Proof.
  intros Hwf.
  destruct (decide (size (present_seeds self) < 2)%nat) as [Hlt|Hge].
  - rewrite (filter_relevant_graph_few_seeds self Hlt).
    pose proof (present_seeds_filtered self (present_seeds self) ltac:(done)) as HP.
    rewrite filter_relevant_graph_few_seeds by (by rewrite HP).
    rewrite HP. simpl. by apply induced_induced.
  - destruct (filter_relevant_graph_two_seeds self Hwf ltac:(lia))
      as (D & A & HD & HA & ->).
    assert (HK : ∀ x, x ∈ D ∩ A ↔ between_seeds self x).
    { intros x. unfold between_seeds. by rewrite elem_of_intersection, HD, HA. }
    assert (HPK : present_seeds self ⊆ D ∩ A).
    { intros s Hs. apply HK. split; by exists s. }
    pose proof (present_seeds_filtered self (D ∩ A) HPK) as HP.
    set (self' := set_graph self (induced_subgraph (graph self) (D ∩ A))).
    destruct (filter_relevant_graph_two_seeds self') as (D' & A' & HD' & HA' & ->).
    { by apply induced_wf. }
    { fold self' in HP. rewrite HP. lia. }
    fold self' in HP. simpl.
    assert (D' ∩ A' = D ∩ A) as ->; [|by apply induced_induced].
    apply set_eq. intros x. rewrite (HK x), elem_of_intersection, HD', HA', HP. simpl.
    split.
    + intros [(s1 & Hs1 & Hr1) (s2 & Hs2 & Hr2)].
      split; [exists s1|exists s2]; (split; [done|]); by eapply induced_reaches_sub.
    + intros Hx. pose proof Hx as [(s1 & Hs1 & Hr1) (s2 & Hs2 & Hr2)].
      split; [exists s1|exists s2]; (split; [done|]);
        apply (between_reaches self (D ∩ A)); try done;
        try (by apply HK); by apply HPK.
Qed.

(** *** Seeds that are not connected *)

(** X16.  When no present seed reaches a present seed by a path of one edge
    or more (itself included), the filter returns the present seeds alone and
    no edge. *)
Theorem filter_disconnected_seeds (self : BitcoinAnalyzer) :
  graph_wf (graph self) →
  (∀ s1 s2, s1 ∈ present_seeds self → s2 ∈ present_seeds self →
            ¬ tc (edge_rel (graph self)) s1 s2) →
  nodes (filter_relevant_graph self) = present_seeds self ∧
  edges (filter_relevant_graph self) = ∅.
Proof.
  intros Hwf Hno.
  assert (∃ K : gset string,
            filter_relevant_graph self = induced_subgraph (graph self) K ∧
            ∀ x, x ∈ nodes (graph self) ∩ K ↔ x ∈ present_seeds self) as (K & -> & HK).
  { destruct (decide (size (present_seeds self) < 2)%nat) as [Hlt|Hge].
    - exists (present_seeds self). split; [by apply filter_relevant_graph_few_seeds|].
      intros x. rewrite elem_of_intersection. split; [tauto|].
      intros Hx. split; [by apply present_seeds_nodes|done].
    - destruct (filter_relevant_graph_two_seeds self Hwf ltac:(lia))
        as (D & A & HD & HA & ->).
      exists (D ∩ A). split; [done|]. intros x.
      rewrite !elem_of_intersection, HD, HA. split.
      + intros (Hn & (s1 & Hs1 & Hr1) & (s2 & Hs2 & Hr2)).
        apply rtc_tc in Hr1 as [->|Ht1]; [done|].
        apply rtc_tc in Hr2 as [<-|Ht2]; [done|].
        destruct (Hno s1 s2 Hs1 Hs2). by etrans.
      + intros Hx. split; [by apply present_seeds_nodes|].
        split; by exists x. }
  split; simpl.
  - apply set_eq. intros x. apply HK.
  - apply map_empty. intros [u v]. apply map_lookup_filter_None.
    destruct (edges (graph self) !! (u, v)) as [a|] eqn:Huv; [right|by left].
    intros a' _ [Hu Hv]. simpl in *.
    destruct (Hwf u v ltac:(by eexists)) as [Hnu Hnv].
    apply (Hno u v).
    + apply HK. by apply elem_of_intersection.
    + apply HK. by apply elem_of_intersection.
    + apply tc_once. by exists a.
Qed.

End PruningMore.

(** X15 at the chain graph. *)
Lemma filter_idempotent_witness :
  let R := constant_runtime RequestException in
  let self := chain_analyzer "A" "B" "X" "Y" in
  @filter_relevant_graph R (set_graph self (@filter_relevant_graph R self))
  = @filter_relevant_graph R self.
Proof.
  intros R self.
  exact (@filter_idempotent R self (chain_graph_wf "A" "B" "X" "Y")).
Defined.

(** X16 at a graph with the seeds ["A"] and ["B"] and the one edge from
    ["A"] to ["X"]: the seeds stay, the edge goes. *)
Lemma filter_disconnected_seeds_witness :
  let R := constant_runtime RequestException in
  let G := add_edge (add_nodes_from empty_graph {["A"; "B"]}) "A" "X"
             (EdgeAttr (Some "h1") 1) in
  let self := MkAnalyzer {["A"; "B"]} 1 G ∅ [] ∅ 0 in
  nodes (@filter_relevant_graph R self) = present_seeds self ∧
  edges (@filter_relevant_graph R self) = ∅.
Proof.
  intros R G self.
  assert (Hwf : graph_wf (graph self)).
  { apply add_edge_wf, add_nodes_from_wf, empty_graph_wf. }
  assert (Hedge : ∀ u v, edge_rel (graph self) u v → u = "A" ∧ v = "X").
  { intros u v Huv. unfold edge_rel in Huv. simpl in Huv.
    apply lookup_insert_is_Some in Huv as [Heq|[_ Hemp]].
    - by injection Heq as <- <-.
    - rewrite lookup_empty in Hemp. by destruct Hemp. }
  assert (Hseed : ∀ s, s ∈ present_seeds self → s ≠ "X").
  { intros s [_ Hs]%elem_of_filter ->. simpl in Hs.
    apply elem_of_union in Hs as [Hs|Hs]; apply elem_of_singleton in Hs;
      discriminate Hs. }
  assert (Hno : ∀ s1 s2, s1 ∈ present_seeds self → s2 ∈ present_seeds self →
                         ¬ tc (edge_rel (graph self)) s1 s2).
  { intros s1 s2 _ Hs2 Htc. apply (Hseed s2 Hs2).
    induction Htc as [x y Hxy|x y z Hxy _ IH]; [|by apply IH].
    by destruct (Hedge _ _ Hxy). }
  exact (@filter_disconnected_seeds R self Hwf Hno).
Defined.

(** ** Drawing *)

Section Drawing.
Context {R : Runtime}.

(** X18.  [visualize_graph] draws nothing and saves no file for a graph
    without nodes.  Otherwise it draws every node of the graph in exactly one
    of two lists, the seeds that are nodes in red and all other nodes in
    light blue, labels every seed that is a node (all nodes when there are
    fewer than 50), and ends by saving the figure to the given file. *)
Theorem visualize_graph_colours (graph : DiGraph) (initial : list string)
    (output : string) :
  (nodes graph = ∅ → visualize_graph graph initial output = []) ∧
  (nodes graph ≠ ∅ →
     ∃ other red labelled title,
       visualize_graph graph initial output
       = [Figure; DrawNodes other 300 "lightblue"; DrawNodes red 500 "red";
          DrawEdges (edge_set graph); DrawLabels labelled; Title title;
          AxisOff; TightLayout; SaveFig output] ∧
       (∀ n, n ∈ other ↔ n ∈ nodes graph ∧ n ∉ initial) ∧ NoDup other ∧
       (∀ n, n ∈ red ↔ n ∈ initial ∧ n ∈ nodes graph) ∧
       (∀ n, n ∈ nodes graph → (n ∈ other ↔ n ∉ red)) ∧
       (∀ n, n ∈ red → n ∈ labelled) ∧ labelled ⊆ nodes graph ∧
       ((size (nodes graph) < 50)%nat → labelled = nodes graph)).
Proof.
  unfold visualize_graph. split.
  - intros ->. by rewrite size_empty, bool_decide_eq_true_2.
  - intros Hne. rewrite bool_decide_eq_false_2.
    2:{ intros Hz. apply Hne. apply leibniz_equiv. by apply size_empty_iff. }
    cbv zeta.
    set (red := filter (λ node, node ∈ nodes graph) initial).
    set (other := filter (λ node, node ∉ initial) (set_order (nodes graph))).
    assert (Hred : ∀ n, n ∈ red ↔ n ∈ initial ∧ n ∈ nodes graph).
    { intros n. unfold red. rewrite list_elem_of_filter. tauto. }
    assert (Hother : ∀ n, n ∈ other ↔ n ∈ nodes graph ∧ n ∉ initial).
    { intros n. unfold other. rewrite list_elem_of_filter, set_order_elem_of. tauto. }
    assert (Hone : ∀ n, n ∈ nodes graph → (n ∈ other ↔ n ∉ red)).
    { intros n Hn. rewrite Hother, Hred. tauto. }
    assert (Hnd : NoDup other) by apply NoDup_filter, set_order_NoDup.
    case_bool_decide as Hsz.
    + eexists other, red, _, _. split; [reflexivity|].
      do 4 (split; [done|]).
      split; [intros n Hn; by apply Hred in Hn as [_ ?]|]. split; [done|]. done.
    + eexists other, red, _, _. split; [reflexivity|].
      do 4 (split; [done|]).
      split; [intros n Hn; by apply elem_of_list_to_set|]. split; [|lia].
      intros n Hn%elem_of_list_to_set. by apply Hred in Hn as [_ ?].
Qed.

Lemma analyze_seed_nodes initial lvl sd ed :
  let self := analyze_state (init initial lvl sd ed) in
  initial_addresses self = list_to_set initial ∧
  ∀ a, a ∈ initial → a ∈ nodes (graph self).
Proof.
  intros self. unfold self, analyze_state.
  destruct (init_fields initial lvl sd ed) as (Hi & _). split.
  - apply (level_loop_invariant (λ s, initial_addresses s = list_to_set initial)).
    + intros level cur st st' Hrtc. by destruct (updates_frame _ _ _ _ Hrtc) as (-> & _).
    + done.
    + done.
  - intros a Ha. apply (level_loop_invariant (λ s, a ∈ nodes (graph s))).
    + intros level cur st st' Hrtc. apply (updates_nodes _ _ _ _ Hrtc).
    + done.
    + simpl. rewrite Hi. apply elem_of_union_r. by apply elem_of_list_to_set.
Qed.



End Drawing.


(** X9 at the scenario of the repository's test: the edge from ["addr1"] to
    ["addr2"] carries the hash and the time of the logged transaction. *)
Lemma analyze_edges_carry_logged_witness :
  let R := constant_runtime test_response in
  let self := @analyze_state R (@init R ["addr1"] 1 None None) in
  let a := EdgeAttr (Some "tx1") 0 in
  ∃ tx, tx ∈ all_transactions self ∧
        attr_tx_hash a = tx_hash_field tx ∧ attr_time a = tx_time tx ∧
        "addr1" ∈ tx_senders tx ∧ "addr2" ∈ tx_receivers tx ∧ "addr1" ≠ "addr2".
Proof.
  intros R self a.
  assert (Hedge : edges (graph self) !! ("addr1", "addr2") = Some a)
    by (vm_compute; reflexivity).
  exact (@analyze_edges_carry_logged R ["addr1"] 1 None None "addr1" "addr2" a Hedge).
Defined.

(** X13 at the scenario of the repository's test: the logged transaction is
    inside a window of one of its participants. *)
Lemma analyze_log_in_windows_witness :
  let R := constant_runtime test_response in
  let self := @analyze_state R (@init R ["addr1"] 1 None None) in
  let tx := simple_tx "tx1" None ["addr1"] ["addr2"] in
  ∃ p ws mn mx,
    p ∈ tx_senders tx ∪ tx_receivers tx ∧ p ∈ visited_addresses self ∧
    address_constraints self !! p = Some ws ∧ (mn, mx) ∈ ws ∧
    mn ≤ tx_time tx ∧ tx_time tx ≤ mx.
Proof.
  intros R self tx.
  assert (Hlog : all_transactions self = [tx; tx]) by (vm_compute; reflexivity).
  assert (Hin : tx ∈ all_transactions self) by (rewrite Hlog; apply list_elem_of_here).
  exact (@analyze_log_in_windows R ["addr1"] 1 None None tx Hin).
Defined.

(** The drawing of the repository's test scenario. *)
Example main_run_test :
  let R := constant_runtime test_response in
  @main_run R ["addr1"] 1 None None "graph.png"
  = [Figure; DrawNodes [] 300 "lightblue"; DrawNodes ["addr1"] 500 "red";
     DrawEdges ∅; DrawLabels {["addr1"]};
     Title "Bitcoin Transaction Analysis (1 nodes)";
     AxisOff; TightLayout; SaveFig "graph.png"].
Proof. vm_compute. reflexivity. Qed.

(** ** A single seed *)

Section SingleSeed.
Context {R : Runtime}.

Lemma analyze_state_no_self_loop initial lvl sd ed a :
  edges (graph (analyze_state (init initial lvl sd ed))) !! (a, a) = None.
Proof.
  unfold analyze_state.
  apply (level_loop_invariant (λ self, edges (graph self) !! (a, a) = None)).
  - intros level cur st st' Hrtc. by rewrite (updates_self_loop _ _ _ _ a Hrtc).
  - done.
  - simpl. by rewrite init_graph.
Qed.

(** X20.  With fewer than two different seeds the filter keeps nothing of
    what the analysis found: whatever transactions were recorded, the
    filtered graph of the completed analysis has the seeds as its only nodes
    and no edge. *)
Theorem single_seed_filter (initial : list string) (lvl : Z) (sd ed : option datetime) :
  (size (list_to_set initial : gset string) < 2)%nat →
  let self := analyze_state (init initial lvl sd ed) in
  nodes (filter_relevant_graph self) = list_to_set initial ∧
  edges (filter_relevant_graph self) = ∅.
Proof.
  intros Hsize self.
  destruct (analyze_seed_nodes initial lvl sd ed) as [Hi Hnodes]. fold self in Hi, Hnodes.
  assert (present_seeds self = list_to_set initial) as HP.
  { unfold present_seeds. rewrite Hi. apply set_eq. intros a.
    rewrite elem_of_filter, elem_of_list_to_set. split; [tauto|].
    intros Ha. split; [by apply Hnodes|done]. }
  rewrite filter_relevant_graph_few_seeds by (by rewrite HP).
  rewrite HP. simpl. split.
  - apply set_eq. intros a. rewrite elem_of_intersection, elem_of_list_to_set.
    split; [tauto|]. intros Ha. split; [by apply Hnodes|done].
  - apply map_empty. intros [u v]. apply map_lookup_filter_None.
    destruct (decide (u = v)) as [->|Hne].
    + left. apply analyze_state_no_self_loop.
    + right. intros a _ [Hu Hv]. simpl in *. apply Hne.
      destruct (decide (size (list_to_set initial : gset string) = 0)%nat) as [Hz|Hnz].
      * apply size_empty_iff in Hz. rewrite Hz in Hu. by apply not_elem_of_empty in Hu.
      * apply (size_singleton_inv (list_to_set initial : gset string) u v);
          [lia|done|done].
Qed.

End SingleSeed.

(** X20 at the scenario of the repository's test: one seed, one recorded
    edge, nothing but the seed after filtering. *)
Lemma single_seed_filter_witness :
  let R := constant_runtime test_response in
  let self := @analyze_state R (@init R ["addr1"] 1 None None) in
  nodes (@filter_relevant_graph R self) = list_to_set ["addr1"] ∧
  edges (@filter_relevant_graph R self) = ∅.
Proof.
  intros R self.
  assert (Hsize : (size (list_to_set ["addr1"] : gset string) < 2)%nat)
    by (vm_compute; lia).
  exact (@single_seed_filter R ["addr1"] 1 None None Hsize).
Defined.

(** ** The levels a run enters *)

Section Levels.
Context {R : Runtime}.

Lemma level_starts_prefix levels cur self :
  ((λ e : Z * list string * BitcoinAnalyzer, e.1.1) <$> level_starts levels cur self)
    `prefix_of` levels ∧
  (∀ i e, level_starts levels cur self !! S i = Some e →
          ∃ e0, level_starts levels cur self !! i = Some e0 ∧ e0.1.2 ≠ []).
Proof.
  revert cur self. induction levels as [|level rest IH]; intros cur self.
  - split; [done|]. intros i e Hi. done.
  - destruct cur as [|c cur'].
    + split; [apply prefix_cons, prefix_nil|]. intros i e Hi. done.
    + change (level_starts (level :: rest) (c :: cur') self)
        with ((level, c :: cur', self) ::
              level_starts rest (run_level level (c :: cur') self).2
                                (run_level level (c :: cur') self).1).
      destruct (IH (run_level level (c :: cur') self).2
                   (run_level level (c :: cur') self).1) as [IHp IHn].
      split; [rewrite fmap_cons; by apply prefix_cons|].
      intros [|i] e Hi.
      * eexists. split; [reflexivity|done].
      * simpl in Hi. destruct (IHn i e Hi) as (e0 & He0 & Hne). by exists e0.
Qed.

(** X21.  A run enters the levels 0, 1, 2, ... in this order and at most
    [max_level + 1] of them; it enters a level only if the frontier of the
    level before was not empty. *)
Theorem analyze_levels_entered (self : BitcoinAnalyzer) :
  let starts := level_starts (range (max_level self + 1))
                  (analyze_start self).2 (analyze_start self).1 in
  ((λ e : Z * list string * BitcoinAnalyzer, e.1.1) <$> starts)
    = Z.of_nat <$> seq 0 (length starts) ∧
  (length starts ≤ Z.to_nat (max_level self + 1))%nat ∧
  (∀ i e, starts !! S i = Some e → ∃ e0, starts !! i = Some e0 ∧ e0.1.2 ≠ []).
Proof.
  intros starts.
  destruct (level_starts_prefix (range (max_level self + 1))
              (analyze_start self).2 (analyze_start self).1) as [[k Hk] Hn].
  fold starts in Hk, Hn.
  set (F := (λ e : Z * list string * BitcoinAnalyzer, e.1.1) <$> starts) in *.
  assert (length F = length starts) as HlenF by apply length_fmap.
  assert (length F ≤ Z.to_nat (max_level self + 1))%nat as Hle.
  { apply (f_equal length) in Hk. unfold range in Hk.
    rewrite length_app, length_fmap, length_seq in Hk. lia. }
  split; [|split; [lia|done]].
  assert (F = take (length F) (range (max_level self + 1))) as HF
    by (by rewrite Hk, take_app_length).
  rewrite HF at 1. unfold range. rewrite <- fmap_take, take_seq.
  by rewrite Nat.min_l, HlenF by lia.
Qed.

End Levels.
